(** * Address autocomplete: tokenizer, formatter and candidate pipeline

    A shallow embedding of the pure core of the [AddressAutocomplete]
    component: [extractStreetAndNumber], [formatArgentinianAddress] and the
    filtering / deduplication steps of [searchAddresses].

    A JavaScript string is a sequence of UTF-16 code units; it is modelled
    as a list of code units ([N]).  Optional object fields and [null] are
    [option]; array indexing is the partial lookup [l !! i].

    The handlers of the component, its debounce timer and the caller [App]
    follow: the state of the hooks is a record, a handler a function on it,
    and the events of the component a step relation. *)

From Stdlib Require Import NArith Lia.
From stdpp Require Import base option list strings gmap sets.

Open Scope N_scope.
Open Scope nat_scope.
Open Scope list_scope.

(** ** JavaScript strings *)

Module JS.

Abbreviation jsstring := (list N) (only parsing).

(** A string literal of the source that only has ASCII characters. *)
Definition lit (s : string) : jsstring :=
  Ascii.N_of_ascii <$> String.list_ascii_of_string s.

(** [\s] of a regular expression and the characters [String.prototype.trim]
    removes: WhiteSpace and LineTerminator of ECMAScript. *)
Definition isWhite (c : N) : bool :=
  (  (9 <=? c) && (c <=? 13)            (* TAB LF VT FF CR *)
  || (c =? 32)                          (* SPACE *)
  || (c =? 160)                         (* NO-BREAK SPACE *)
  || (c =? 5760)                        (* U+1680 *)
  || ((8192 <=? c) && (c <=? 8202))     (* U+2000 .. U+200A *)
  || (c =? 8232) || (c =? 8233)         (* U+2028 U+2029 *)
  || (c =? 8239) || (c =? 8287)         (* U+202F U+205F *)
  || (c =? 12288)                       (* U+3000 *)
  || (c =? 65279))%N.                   (* U+FEFF *)

(** [\d] (without the unicode-sets flag): the ASCII digits. *)
Definition isDigit (c : N) : bool := ((48 <=? c) && (c <=? 57))%N.

(** The character class [[A-Za-z0-9\-\/]]. *)
Definition isNumTail (c : N) : bool :=
  (  ((65 <=? c) && (c <=? 90))
  || ((97 <=? c) && (c <=? 122))
  || ((48 <=? c) && (c <=? 57))
  || (c =? 45) || (c =? 47))%N.

Fixpoint dropWhile (p : N → bool) (s : jsstring) : jsstring :=
  match s with
  | [] => []
  | c :: s' => if p c then dropWhile p s' else s
  end.

Definition trimStart (s : jsstring) : jsstring := dropWhile isWhite s.
Definition trimEnd (s : jsstring) : jsstring :=
  reverse (dropWhile isWhite (reverse s)).

(** [s.trim()] *)
Definition trim (s : jsstring) : jsstring := trimEnd (trimStart s).

(** [s.split(sep)] for a separator of one code unit: the pieces between the
    occurrences of [sep]; the result is never the empty array. *)
Fixpoint split (sep : N) (s : jsstring) : list jsstring :=
  match s with
  | [] => [[]]
  | c :: s' =>
      if (c =? sep)%N then [] :: split sep s'
      else match split sep s' with
           | w :: ws => (c :: w) :: ws
           | [] => [[c]]
           end
  end.

(** [s.split(/\s+/)]: the pieces between the maximal runs of white space.
    A run at the start or at the end of [s] leaves an empty piece there, and
    the empty string gives the one-element array of the empty string. *)
Fixpoint splitWs (s : jsstring) : list jsstring :=
  match s with
  | [] => [[]]
  | c :: s' =>
      if isWhite c then
        match s' with
        | c' :: _ => if isWhite c' then splitWs s' else [] :: splitWs s'
        | [] => [] :: splitWs s'
        end
      else match splitWs s' with
           | w :: ws => (c :: w) :: ws
           | [] => [[c]]
           end
  end.

(** [arr.join(sep)] *)
Fixpoint join (sep : jsstring) (l : list jsstring) : jsstring :=
  match l with
  | [] => []
  | x :: l' =>
      match l' with
      | [] => x
      | _ :: _ => x ++ sep ++ join sep l'
      end
  end.

Fixpoint startsWith (sub s : jsstring) : bool :=
  match sub, s with
  | [], _ => true
  | _ :: _, [] => false
  | a :: sub', b :: s' => (a =? b)%N && startsWith sub' s'
  end.

(** [s.includes(sub)] *)
Fixpoint includes (s sub : jsstring) : bool :=
  startsWith sub s ||
  match s with
  | [] => false
  | _ :: s' => includes s' sub
  end.

(** [s.endsWith(sub)] *)
Definition endsWith (sub s : jsstring) : bool :=
  startsWith (reverse sub) (reverse s).

(** Truthiness of a string: every string but the empty one. *)
Definition truthy (s : jsstring) : bool :=
  match s with [] => false | _ :: _ => true end.

(** Truthiness of an optional string field ([undefined], [null] and the
    empty string are falsy). *)
Definition truthyOpt (o : option jsstring) : bool :=
  match o with Some (_ :: _) => true | _ => false end.

(** [a || b] on optional strings. *)
Definition orOpt (a b : option jsstring) : option jsstring :=
  if truthyOpt a then a else b.

(** [a || ''] *)
Definition orEmpty (a : option jsstring) : jsstring :=
  match a with Some (c :: s) => c :: s | _ => [] end.

End JS.
Import JS.

(** ** Data model *)

(** The hint the tokenizer returns: [{ street: string; number: string | null }]. *)
Record ParsedHint := mkHint {
  street : jsstring;
  number : option jsstring
}.

(** [NominatimResult['address']]: every field is optional. *)
Record Address := mkAddress {
  house_number : option jsstring;
  road : option jsstring;
  suburb : option jsstring;
  city : option jsstring;
  town : option jsstring;
  village : option jsstring;
  municipality : option jsstring;
  city_district : option jsstring;
  state : option jsstring;
  postcode : option jsstring;
  country : option jsstring
}.

(** [NominatimResult].  The source guards [result.address] against being
    absent ([if (!addr)], [r.address?.road]), hence the [option]. *)
Record NominatimResult := mkResult {
  display_name : jsstring;
  lat : jsstring;
  lon : jsstring;
  address : option Address
}.

(** ** The tokenizer *)

(** [/^\d+[A-Za-z0-9\-\/]*$/.test(token)] *)
Definition isNumericToken (token : jsstring) : bool :=
  match token with
  | [] => false
  | c :: _ => isDigit c && forallb isNumTail (dropWhile isDigit token)
  end.

(** The [forEach] that pushes the index of every numeric token; [idx] is
    the index of the first token of [tokens]. *)
Fixpoint numericIndicesFrom (idx : nat) (tokens : list jsstring) : list nat :=
  match tokens with
  | [] => []
  | token :: rest =>
      if isNumericToken token then idx :: numericIndicesFrom (S idx) rest
      else numericIndicesFrom (S idx) rest
  end.

Definition numericTokenIndices (tokens : list jsstring) : list nat :=
  numericIndicesFrom 0 tokens.

Definition comma : N := 44%N.
Definition space : jsstring := [32%N].

(** [input.split(',')[0].trim()] *)
Definition headOf (input : jsstring) : option jsstring :=
  trim <$> split comma input !! 0.

(** [extractStreetAndNumber].  [None] stands for a run in which an index
    falls outside its array, where the source would read [undefined]. *)
Definition extractStreetAndNumber (input : jsstring) : option ParsedHint :=
  withoutCommas ← headOf input;
  let tokens := splitWs withoutCommas in
  let numericTokenIndices := numericTokenIndices tokens in
  if bool_decide (2 ≤ length numericTokenIndices) then
    houseNumberIdx ← numericTokenIndices !! (length numericTokenIndices - 1);
    let streetTokens := take houseNumberIdx tokens in
    houseNumber ← tokens !! houseNumberIdx;
    Some {| street := trim (join space streetTokens);
            number := Some houseNumber |}
  else if bool_decide (length numericTokenIndices = 1) then
    numIdx ← numericTokenIndices !! 0;
    if bool_decide (numIdx = length tokens - 1) && bool_decide (0 < numIdx) then
      houseNumber ← tokens !! numIdx;
      Some {| street := trim (join space (take numIdx tokens));
              number := Some houseNumber |}
    else
      Some {| street := withoutCommas; number := None |}
  else
    Some {| street := withoutCommas; number := None |}.



(** ** The formatter *)

(** The separator of [parts.join(', ')]. *)
Definition sep : jsstring := [44%N; 32%N].

(** [injected?.number] and [injected?.street]: absent when the hint is. *)
Definition hintNumber (injected : option ParsedHint) : option jsstring :=
  h ← injected; number h.
Definition hintStreet (injected : option ParsedHint) : option jsstring :=
  street <$> injected.

(** The street segment pushed first: [`${streetToUse} ${number}`] when the
    number is truthy, the street alone otherwise, nothing for no street. *)
Definition streetSegment (streetToUse num : jsstring) : list jsstring :=
  if truthy streetToUse then
    [if truthy num then streetToUse ++ space ++ num else streetToUse]
  else [].

(** A [parts.push(x)] guarded by [if (x)]. *)
Definition pushIf (x : jsstring) : list jsstring :=
  if truthy x then [x] else [].

(** The array [parts] of [formatArgentinianAddress] before the join. *)
Definition formatParts (addr : Address) (injected : option ParsedHint)
  : list jsstring :=
  let streetOSM := orEmpty (road addr) in
  let locality :=
    orEmpty (orOpt (orOpt (town addr) (suburb addr)) (village addr)) in
  let municipality :=
    orEmpty (orOpt (orOpt (municipality addr) (city_district addr)) (city addr)) in
  let state := orEmpty (state addr) in
  let num := orEmpty (house_number addr) in
  let streetToUse := streetOSM in
  let num :=
    if truthyOpt (hintNumber injected) then orEmpty (hintNumber injected)
    else num in
  let streetToUse :=
    if truthyOpt (hintStreet injected) then orEmpty (hintStreet injected)
    else streetToUse in
  streetSegment streetToUse num
    ++ pushIf locality ++ pushIf municipality ++ pushIf state.

(** [formatArgentinianAddress(result, injected)] *)
Definition formatArgentinianAddress
    (result : NominatimResult) (injected : option ParsedHint) : jsstring :=
  match address result with
  | None => display_name result
  | Some addr =>
      let formatted := trim (join sep (formatParts addr injected)) in
      if truthy formatted then formatted else display_name result
  end.

(** ** Filtering and deduplication in [searchAddresses] *)

(** [{ ...r, display_name: d }] *)
Definition withDisplayName (r : NominatimResult) (d : jsstring)
  : NominatimResult :=
  {| display_name := d; lat := lat r; lon := lon r; address := address r |}.

(** [results.filter(r => r.address?.road)] *)
Definition validResultsOf (results : list NominatimResult)
  : list NominatimResult :=
  filter (λ r, truthyOpt (a ← address r; road a)) results.

(** [validResults.map(r => ({...r, display_name: formatArgentinianAddress(r, parsed)}))] *)
Definition mapFormatted (parsed : ParsedHint)
    (validResults : list NominatimResult) : list NominatimResult :=
  (λ r, withDisplayName r (formatArgentinianAddress r (Some parsed)))
    <$> validResults.

(** The block guarded by [if (parsed.number)]: keep the suggestions whose
    text includes the number; when none is left, map the valid results
    again. *)
Definition numberFilter (parsed : ParsedHint)
    (validResults mapped : list NominatimResult) : list NominatimResult :=
  match number parsed with
  | Some (c :: n) =>
      let mapped' :=
        filter (λ s, includes (display_name s) (c :: n)) mapped in
      if bool_decide (length mapped' = 0) then mapFormatted parsed validResults
      else mapped'
  | _ => mapped
  end.

(** The loop over [mapped] with the set [seen] and the array [deduped]. *)
Fixpoint dedupeLoop (seen : gset (list N)) (deduped mapped : list NominatimResult)
  : list NominatimResult :=
  match mapped with
  | [] => deduped
  | m :: rest =>
      if decide (display_name m ∈ seen) then dedupeLoop seen deduped rest
      else dedupeLoop ({[display_name m]} ∪ seen) (deduped ++ [m]) rest
  end.

Definition dedupe (mapped : list NominatimResult) : list NominatimResult :=
  dedupeLoop ∅ [] mapped.

(** What [searchAddresses] hands to [setSuggestions] for a successful
    response carrying [results], [parsed] being the hint of the query. *)
Definition suggestionsOf (parsed : ParsedHint) (results : list NominatimResult)
  : list NominatimResult :=
  let validResults := validResultsOf results in
  if bool_decide (length validResults = 0) then []
  else
    let mapped := mapFormatted parsed validResults in
    let mapped := numberFilter parsed validResults mapped in
    dedupe mapped.

(** ** The earlier copy of the component (test-input/src)

    The repository also holds an earlier copy of the component, whose
    tokenizer works with one regular expression and whose formatter injects
    the typed number only when the two street names overlap. *)

Module Legacy.

(** LineTerminator: what [.] does not match. *)
Definition isLineTerminator (c : N) : bool :=
  ((c =? 10) || (c =? 13) || (c =? 8232) || (c =? 8233))%N.

(** [\w]: the class [[A-Za-z0-9_]]. *)
Definition isWord (c : N) : bool :=
  (  ((65 <=? c) && (c <=? 90))
  || ((97 <=? c) && (c <=? 122))
  || ((48 <=? c) && (c <=? 57))
  || (c =? 95))%N.

Definition isWordOpt (c : option N) : bool :=
  match c with Some c => isWord c | None => false end.

(** [\b] between the character [prev] and the rest [s] of the subject. *)
Definition wordBoundary (prev : option N) (s : jsstring) : bool :=
  xorb (isWordOpt prev) (isWordOpt (head s)).

(** The regular expression of [withoutCommas.match], anchored at both ends:
    a lazy first group of any characters but line terminators, then, at a
    word boundary, a second group of one or more digits followed by letters,
    digits, hyphens or slashes.  [s] is the subject from the current
    position on and [prev] the character before it: the first group grows
    one character at a time until the rest is such a number.  The result is
    the pair of the two groups. *)
Fixpoint matchStreetNumber (prev : option N) (s : jsstring)
  : option (jsstring * jsstring) :=
  if wordBoundary prev s && isNumericToken s then Some ([], s)
  else match s with
       | [] => None
       | c :: s' =>
           if isLineTerminator c then None
           else '(g1, g2) ← matchStreetNumber (Some c) s'; Some (c :: g1, g2)
       end.

(** [s.replace(/\d+.*/, '')]: from the first digit on, all is removed up to
    the next line terminator (or the end). *)
Fixpoint removeFromDigits (s : jsstring) : jsstring :=
  match s with
  | [] => []
  | c :: s' =>
      if isDigit c then dropWhile (λ c, negb (isLineTerminator c)) s'
      else c :: removeFromDigits s'
  end.

(** [extractStreetAndNumber] of the earlier copy. *)
Definition extractStreetAndNumber (input : jsstring) : option ParsedHint :=
  withoutCommas ← headOf input;
  let fallback :=
    {| street := trim (removeFromDigits withoutCommas); number := None |} in
  match matchStreetNumber None withoutCommas with
  | Some (g1, g2) =>
      let street := trim g1 in
      let number := trim g2 in
      if truthy street && truthy number then
        Some {| street := street; number := Some number |}
      else Some fallback
  | None => Some fallback
  end.

Section Formatter.

(** [String.prototype.toLowerCase], whose table is not part of the source. *)
Variable toLowerCase : jsstring → jsstring.

Definition looselyMatches (userStreet streetOSM : jsstring) : bool :=
  let userStreetLc := toLowerCase userStreet in
  let osmStreetLc := toLowerCase streetOSM in
  truthy userStreetLc && truthy osmStreetLc
  && (includes osmStreetLc userStreetLc || includes userStreetLc osmStreetLc).

Definition formatParts (addr : Address) (injected : option ParsedHint)
  : list jsstring :=
  let streetOSM := orEmpty (road addr) in
  let locality :=
    orEmpty (orOpt (orOpt (town addr) (suburb addr)) (village addr)) in
  let municipality :=
    orEmpty (orOpt (orOpt (municipality addr) (city_district addr)) (city addr)) in
  let state := orEmpty (state addr) in
  let num := orEmpty (house_number addr) in
  let num :=
    if truthyOpt (hintNumber injected)
       && looselyMatches (orEmpty (hintStreet injected)) streetOSM
    then orEmpty (hintNumber injected)
    else num in
  (if truthy streetOSM then
     [if truthy num then streetOSM ++ space ++ num else streetOSM]
   else if truthyOpt (hintStreet injected) then
     [if truthyOpt (hintNumber injected)
      then orEmpty (hintStreet injected) ++ space ++ orEmpty (hintNumber injected)
      else orEmpty (hintStreet injected)]
   else [])
    ++ pushIf locality ++ pushIf municipality ++ pushIf state.

(** [formatArgentinianAddress] of the earlier copy. *)
Definition formatArgentinianAddress
    (result : NominatimResult) (injected : option ParsedHint) : jsstring :=
  match address result with
  | None => display_name result
  | Some addr =>
      let formatted := trim (join sep (formatParts addr injected)) in
      if truthy formatted then formatted else display_name result
  end.

End Formatter.

(** Lower case of the code units below 256 ([A]-[Z] and the capital letters
    of Latin-1); the others are left as they are.  Used for sample runs. *)
Definition lowerLatin1 (c : N) : N :=
  (if ((65 <=? c) && (c <=? 90))
      || ((192 <=? c) && (c <=? 222) && negb (c =? 215))
   then c + 32 else c)%N.

End Legacy.

(** ** Sample data *)

Definition noAddress : Address :=
  mkAddress None None None None None None None None None None None.

(** ["Av. José Andrés López"]; [233] is e-acute, [243] is o-acute. *)
Definition avLopez : jsstring :=
  lit "Av. Jos" ++ [233%N] ++ lit " Andr" ++ [233%N] ++ lit "s L" ++ [243%N]
    ++ lit "pez".

Definition recLopez : NominatimResult :=
  {| display_name := lit "Av. Lopez 200, Ze, Buenos Aires, Argentina";
     lat := lit "-34.5"; lon := lit "-58.5";
     address := Some {| house_number := Some (lit "200");
                        road := Some avLopez;
                        suburb := None; city := None;
                        town := Some (lit "Ze"); village := None;
                        municipality := None; city_district := None;
                        state := Some (lit "Buenos Aires");
                        postcode := None; country := None |} |}.

Definition hint844 : ParsedHint :=
  {| street := lit "Calle 844"; number := Some (lit "1518") |}.

(** A record whose address object has no field at all. *)
Definition recNoFields : NominatimResult :=
  {| display_name := lit "Ze, Buenos Aires, Argentina";
     lat := lit "-34.6"; lon := lit "-58.6";
     address := Some noAddress |}.

(** A record without a road whose town is a single space. *)
Definition addrBlankTown : Address :=
  {| house_number := None; road := None; suburb := None; city := None;
     town := Some (lit " "); village := None;
     municipality := None; city_district := None;
     state := Some (lit "Buenos Aires");
     postcode := None; country := None |}.

Definition recBlankTown : NominatimResult :=
  {| display_name := lit "Buenos Aires, Argentina";
     lat := lit "-34.6"; lon := lit "-58.6";
     address := Some addrBlankTown |}.

(** A record whose town is a comma and a space. *)
Definition addrCommaTown : Address :=
  {| house_number := None; road := Some (lit "Ruta 8"); suburb := None;
     city := None; town := Some (lit ", "); village := None;
     municipality := None; city_district := None;
     state := Some (lit "Buenos Aires");
     postcode := None; country := None |}.

Definition recCommaTown : NominatimResult :=
  {| display_name := lit "Ruta 8, Buenos Aires, Argentina";
     lat := lit "-34.6"; lon := lit "-58.6";
     address := Some addrCommaTown |}.

(** A hint whose number ends with a space, and two records with a road:
    the first also has a town, the second has nothing else. *)
Definition hintTrailing : ParsedHint :=
  {| street := []; number := Some (lit "5 ") |}.

Definition recRuta8 : NominatimResult :=
  {| display_name := lit "Ruta Nacional 8, Ze, Argentina";
     lat := lit "-34.1"; lon := lit "-58.1";
     address := Some {| house_number := None; road := Some (lit "Ruta 8");
                        suburb := None; city := None;
                        town := Some (lit "Ze"); village := None;
                        municipality := None; city_district := None;
                        state := None; postcode := None; country := None |} |}.

Definition recRuta9 : NominatimResult :=
  {| display_name := lit "Ruta Nacional 9, Argentina";
     lat := lit "-34.2"; lon := lit "-58.2";
     address := Some {| house_number := None; road := Some (lit "Ruta 9");
                        suburb := None; city := None;
                        town := None; village := None;
                        municipality := None; city_district := None;
                        state := None; postcode := None; country := None |} |}.

(** ** Predicates of the statements *)

(** The string starts (ends) with a white-space character. *)
Definition leadingWhite (s : jsstring) : bool :=
  from_option isWhite false (head s).
Definition trailingWhite (s : jsstring) : bool :=
  from_option isWhite false (last s).

(** No white space at either end. *)
Definition isTrimmed (s : jsstring) : bool :=
  negb (leadingWhite s) && negb (trailingWhite s).

(** Two white-space characters in a row somewhere in the string. *)
Fixpoint hasWhiteRun (s : jsstring) : bool :=
  match s with
  | [] => false
  | c :: s' => (isWhite c && leadingWhite s') || hasWhiteRun s'
  end.

(** No white-space character at all. *)
Definition whiteFree (s : jsstring) : bool :=
  forallb (λ c, negb (isWhite c)) s.

(** [sub] occurs in [s] as a block of consecutive code units. *)
Definition Substring (sub s : jsstring) : Prop :=
  ∃ pre post, s = pre ++ sub ++ post.

(** The part of the input before its first comma. *)
Fixpoint beforeComma (s : jsstring) : jsstring :=
  match s with
  | [] => []
  | c :: s' => if (c =? comma)%N then [] else c :: beforeComma s'
  end.

(** The head of the input: the part before the first comma, trimmed; and
    its tokens. *)
Definition headText (input : jsstring) : jsstring := trim (beforeComma input).
Definition tokensOf (input : jsstring) : list jsstring :=
  splitWs (headText input).

(** The number of numeric tokens among [tokens]. *)
Definition numericCount (tokens : list jsstring) : nat :=
  length (filter (λ t, isNumericToken t = true) tokens).

(** The branches of the tokenizer. *)
Inductive TokenizerCase (input : list N) : option ParsedHint → Prop :=
  | NumberCase k num :
      last (numericTokenIndices (tokensOf input)) = Some k →
      0 < k →
      2 ≤ numericCount (tokensOf input)
        ∨ (numericCount (tokensOf input) = 1
           ∧ k = length (tokensOf input) - 1) →
      tokensOf input !! k = Some num →
      isNumericToken num = true →
      TokenizerCase input
        (Some {| street := join space (take k (tokensOf input));
                 number := Some num |})
  | SingleElsewhereCase k :
      numericTokenIndices (tokensOf input) = [k] →
      ¬ (k = length (tokensOf input) - 1 ∧ 0 < k) →
      TokenizerCase input
        (Some {| street := headText input; number := None |})
  | NoNumericCase :
      numericCount (tokensOf input) = 0 →
      TokenizerCase input
        (Some {| street := headText input; number := None |}).

(** The address with the number [n] as its house number and, when the hint
    has a street, that street as its road. *)
Definition withHintFields (h : ParsedHint) (n : jsstring) (addr : Address)
  : Address :=
  {| house_number := Some n;
     road := if truthy (street h) then Some (street h) else road addr;
     suburb := suburb addr; city := city addr; town := town addr;
     village := village addr; municipality := municipality addr;
     city_district := city_district addr; state := state addr;
     postcode := postcode addr; country := country addr |}.

Definition withAddress (r : NominatimResult) (a : option Address)
  : NominatimResult :=
  {| display_name := display_name r; lat := lat r; lon := lon r;
     address := a |}.

(** Two separators in a row. *)
Definition doubleSep : jsstring := sep ++ sep.

(** The suggestions whose text includes the number [n]. *)
Definition keptByNumber (n : jsstring) (mapped : list NominatimResult)
  : list NominatimResult :=
  filter (λ s, includes (display_name s) n) mapped.

(** The elements of [l] whose display name occurs at no earlier position of
    [l], in the order of [l]; [i] is the position of the first element of
    [rest] in [l]. *)
Fixpoint firstOccurrencesFrom (l : list NominatimResult) (i : nat)
    (rest : list NominatimResult) : list NominatimResult :=
  match rest with
  | [] => []
  | m :: rest' =>
      if decide (display_name m ∈ display_name <$> take i l)
      then firstOccurrencesFrom l (S i) rest'
      else m :: firstOccurrencesFrom l (S i) rest'
  end.

Definition firstOccurrences (l : list NominatimResult) : list NominatimResult :=
  firstOccurrencesFrom l 0 l.

(** The text of a hint as the formatter writes it in front of a result:
    the street, then a space and the number when there is one. *)
Definition renderHint (h : ParsedHint) : jsstring :=
  match number h with
  | Some n => street h ++ space ++ n
  | None => street h
  end.

(** ** The component: its state and its handlers

    The state of the hooks of [AddressAutocomplete] is a record; a handler
    is a function from the state it runs in to the state after the updates
    it asks for, together with the calls it makes to the outside. *)

Record State := mkState {
  inputValue : jsstring;
  suggestions : list NominatimResult;
  isLoading : bool;
  showSuggestions : bool;
  selectedIndex : Z
}.

(** What a handler does besides updating the state. *)
Inductive Effect :=
  | OnAddressSelect (address : jsstring) (details : option NominatimResult)
  | PreventDefault
  | ConsoleError.

(** How the awaited [fetch] of [searchAddresses] ends: a response that is
    [ok] with its parsed results, a response that is not, or an exception
    caught by the [catch]. *)
Inductive FetchOutcome :=
  | ResponseOk (results : list NominatimResult)
  | ResponseNotOk
  | Threw.

(** The state of the first render: [useState(value)], [useState([])],
    [useState(false)], [useState(false)], [useState(-1)]. *)
Definition initialState (value : jsstring) : State :=
  {| inputValue := value; suggestions := []; isLoading := false;
     showSuggestions := false; selectedIndex := (-1)%Z |}.

Definition setInputValue (v : jsstring) (st : State) : State :=
  {| inputValue := v; suggestions := suggestions st;
     isLoading := isLoading st; showSuggestions := showSuggestions st;
     selectedIndex := selectedIndex st |}.

Definition setSuggestions (v : list NominatimResult) (st : State) : State :=
  {| inputValue := inputValue st; suggestions := v;
     isLoading := isLoading st; showSuggestions := showSuggestions st;
     selectedIndex := selectedIndex st |}.

Definition setIsLoading (v : bool) (st : State) : State :=
  {| inputValue := inputValue st; suggestions := suggestions st;
     isLoading := v; showSuggestions := showSuggestions st;
     selectedIndex := selectedIndex st |}.

Definition setShowSuggestions (v : bool) (st : State) : State :=
  {| inputValue := inputValue st; suggestions := suggestions st;
     isLoading := isLoading st; showSuggestions := v;
     selectedIndex := selectedIndex st |}.

Definition setSelectedIndex (v : Z) (st : State) : State :=
  {| inputValue := inputValue st; suggestions := suggestions st;
     isLoading := isLoading st; showSuggestions := showSuggestions st;
     selectedIndex := v |}.

(** [searchAddresses] up to its [await]: a query of fewer than three code
    units clears the suggestions and returns; otherwise the loading flag is
    set and the request for the query is sent ([Some query]). *)
Definition searchStart (query : jsstring) (st : State)
  : State * option jsstring :=
  if bool_decide (length query < 3) then
    (setShowSuggestions false (setSuggestions [] st), None)
  else (setIsLoading true st, Some query).

(** [searchAddresses] from its [await] on, [parsed] being the hint of the
    query; the [finally] sets the loading flag last. *)
Definition searchDone (parsed : ParsedHint) (outcome : FetchOutcome)
    (st : State) : State * list Effect :=
  match outcome with
  | ResponseOk results =>
      let validResults := validResultsOf results in
      if bool_decide (length validResults = 0) then
        (setIsLoading false
           (setIsLoading false
              (setShowSuggestions false (setSuggestions [] st))), [])
      else
        let mapped := mapFormatted parsed validResults in
        let mapped := numberFilter parsed validResults mapped in
        let deduped := dedupe mapped in
        (setIsLoading false
           (setShowSuggestions (bool_decide (0 < length deduped))
              (setSuggestions deduped st)), [])
  | ResponseNotOk =>
      (setIsLoading false (setShowSuggestions false (setSuggestions [] st)),
       [ConsoleError])
  | Threw =>
      (setIsLoading false (setShowSuggestions false (setSuggestions [] st)),
       [ConsoleError])
  end.

(** One whole call of [searchAddresses], the request ending in [outcome]. *)
Definition searchAddresses (query : jsstring) (outcome : FetchOutcome)
    (st : State) : option (State * list Effect) :=
  match searchStart query st with
  | (st', None) => Some (st', [])
  | (st', Some _) =>
      parsed ← extractStreetAndNumber query;
      Some (searchDone parsed outcome st')
  end.

(** [handleSuggestionClick] *)
Definition handleSuggestionClick (suggestion : NominatimResult) (st : State)
  : State * list Effect :=
  (setSelectedIndex (-1)
     (setShowSuggestions false
        (setSuggestions []
           (setInputValue (display_name suggestion) st))),
   [OnAddressSelect (display_name suggestion) (Some suggestion)]).

(** [handleBlur], [value] being the prop of the component. *)
Definition handleBlur (value : jsstring) (st : State) : State * list Effect :=
  (st, if bool_decide (inputValue st ≠ value)
       then [OnAddressSelect (inputValue st) None] else []).

(** [handleKeyDown] for the key [key].  [None] stands for the run in which
    [suggestions[selectedIndex]] is read outside the array and
    [handleSuggestionClick] fails on [undefined]. *)
Definition handleKeyDown (key : jsstring) (st : State)
  : option (State * list Effect) :=
  if negb (showSuggestions st) || bool_decide (length (suggestions st) = 0) then
    Some (st, if bool_decide (key = lit "Enter")
              then [OnAddressSelect (inputValue st) None] else [])
  else if bool_decide (key = lit "ArrowDown") then
    let prev := selectedIndex st in
    Some (setSelectedIndex
            (if bool_decide (prev < Z.of_nat (length (suggestions st)) - 1)%Z
             then (prev + 1)%Z else prev) st,
          [PreventDefault])
  else if bool_decide (key = lit "ArrowUp") then
    let prev := selectedIndex st in
    Some (setSelectedIndex
            (if bool_decide (0 < prev)%Z then (prev - 1)%Z else (-1)%Z) st,
          [PreventDefault])
  else if bool_decide (key = lit "Enter") then
    if bool_decide (0 ≤ selectedIndex st)%Z
       && bool_decide (selectedIndex st < Z.of_nat (length (suggestions st)))%Z
    then
      suggestion ← suggestions st !! Z.to_nat (selectedIndex st);
      let '(st', effects) := handleSuggestionClick suggestion st in
      Some (st', PreventDefault :: effects)
    else Some (st, [PreventDefault; OnAddressSelect (inputValue st) None])
  else if bool_decide (key = lit "Escape") then
    Some (setSelectedIndex (-1)
            (setShowSuggestions false (setSuggestions [] st)), [])
  else Some (st, []).

(** [handleClickOutside] for a click outside the input and the list. *)
Definition handleClickOutside (st : State) : State :=
  setSelectedIndex (-1) (setShowSuggestions false st).

(** ** The component with its debounce timer

    [debounceRef] holds the id of the last timer; [timers] is the part of
    the environment the component sees: the timers set and not yet fired or
    cleared, each with the query its callback will search. *)

Record World := mkWorld {
  comp : State;
  debounceRef : option nat;
  timers : gmap nat (list N)
}.

Definition initialWorld (value : jsstring) : World :=
  {| comp := initialState value; debounceRef := None; timers := ∅ |}.

Definition withComp (st : State) (w : World) : World :=
  {| comp := st; debounceRef := debounceRef w; timers := timers w |}.

(** [if (debounceRef.current) clearTimeout(debounceRef.current)]: an id
    that is [null] or [0] is falsy. *)
Definition clearDebounce (w : World) : gmap nat (list N) :=
  match debounceRef w with
  | Some (S i) => delete (S i) (timers w)
  | _ => timers w
  end.

(** [handleInputChange], [id] being the id the new [setTimeout] returns. *)
Definition handleInputChange (newValue : jsstring) (id : nat) (w : World)
  : World :=
  {| comp := setSelectedIndex (-1) (setInputValue newValue (comp w));
     debounceRef := Some id;
     timers := <[id := newValue]> (clearDebounce w) |}.

(** The events of the component.  A timer id handed out by [setTimeout] is
    positive and not the id of a pending timer; a response may arrive for
    any query. *)
Inductive step : World → World → Prop :=
  | step_input newValue id w :
      0 < id → timers w !! id = None →
      step w (handleInputChange newValue id w)
  | step_timer id query w :
      timers w !! id = Some query →
      step w {| comp := (searchStart query (comp w)).1;
                debounceRef := debounceRef w;
                timers := delete id (timers w) |}
  | step_response query parsed outcome w :
      extractStreetAndNumber query = Some parsed →
      step w (withComp (searchDone parsed outcome (comp w)).1 w)
  | step_key key st' effects w :
      handleKeyDown key (comp w) = Some (st', effects) →
      step w (withComp st' w)
  | step_click suggestion w :
      step w (withComp (handleSuggestionClick suggestion (comp w)).1 w)
  | step_click_outside w :
      step w (withComp (handleClickOutside (comp w)) w)
  | step_value value w :
      step w (withComp (setInputValue value (comp w)) w)
  | step_unmount w :
      step w {| comp := comp w; debounceRef := debounceRef w;
                timers := clearDebounce w |}.

(** What holds in every state of the component. *)
Record Invariant (w : World) : Prop := {
  inv_index : (-1 ≤ selectedIndex (comp w))%Z;
  inv_shown : showSuggestions (comp w) = true → suggestions (comp w) ≠ [];
  inv_distinct : NoDup (display_name <$> suggestions (comp w));
  inv_roads :
    Forall (λ s, truthyOpt (a ← address s; road a) = true)
           (suggestions (comp w));
  inv_timer :
    ∀ id query, timers w !! id = Some query →
                debounceRef w = Some id ∧ 0 < id
}.

(** ** The caller: [App]

    [App] keeps the saved address and hands [handleAddressSelect] to the
    component as [onAddressSelect]. *)

Inductive AppEffect :=
  | ConsoleLog
  | SaveFile (address : jsstring).

(** [handleAddressSelect(address, details)] in the state [addressSaved]. *)
Definition handleAddressSelect (address : jsstring)
    (details : option NominatimResult) (addressSaved : jsstring)
  : jsstring * list AppEffect :=
  match details with
  | None => (addressSaved, [ConsoleLog])
  | Some _ =>
      if bool_decide (address = addressSaved) then (addressSaved, [])
      else (address, [ConsoleLog; SaveFile address])
  end.

(** The calls of [onAddressSelect] among the effects of the component,
    handed to [App] one after the other. *)
Fixpoint deliver (effects : list Effect) (addressSaved : jsstring)
  : jsstring * list AppEffect :=
  match effects with
  | [] => (addressSaved, [])
  | OnAddressSelect address details :: rest =>
      let '(saved, out) := handleAddressSelect address details addressSaved in
      let '(saved', out') := deliver rest saved in
      (saved', out ++ out')
  | _ :: rest => deliver rest addressSaved
  end.

(** The addresses written to a file, in order. *)
Fixpoint savedFiles (out : list AppEffect) : list jsstring :=
  match out with
  | [] => []
  | SaveFile address :: rest => address :: savedFiles rest
  | ConsoleLog :: rest => savedFiles rest
  end.

(** ** The suggestions of the earlier copy

    [searchAddresses] of the earlier copy maps, filters and deduplicates all
    the results of the response: none is left out for want of a road. *)

Section LegacySearch.

Variable toLowerCase : jsstring → jsstring.

Definition legacyMapFormatted (parsed : ParsedHint)
    (results : list NominatimResult) : list NominatimResult :=
  (λ r, withDisplayName r
          (Legacy.formatArgentinianAddress toLowerCase r (Some parsed)))
    <$> results.

Definition legacyNumberFilter (parsed : ParsedHint)
    (results mapped : list NominatimResult) : list NominatimResult :=
  match number parsed with
  | Some (c :: n) =>
      let mapped' :=
        filter (λ s, includes (display_name s) (c :: n)) mapped in
      if bool_decide (length mapped' = 0) then legacyMapFormatted parsed results
      else mapped'
  | _ => mapped
  end.

Definition legacySuggestionsOf (parsed : ParsedHint)
    (results : list NominatimResult) : list NominatimResult :=
  let mapped := legacyMapFormatted parsed results in
  let mapped := legacyNumberFilter parsed results mapped in
  dedupe mapped.

End LegacySearch.

(** The address with [n] as its house number. *)
Definition withHouseNumber (n : jsstring) (addr : Address) : Address :=
  {| house_number := Some n; road := road addr;
     suburb := suburb addr; city := city addr; town := town addr;
     village := village addr; municipality := municipality addr;
     city_district := city_district addr; state := state addr;
     postcode := postcode addr; country := country addr |}.

(** * Properties *)

(** ** Strings *)

Section Strings.

Implicit Types (s t : list N) (c : N) (ts : list (list N)).

Lemma dropWhile_app_stop p s c :
  p c = false → dropWhile p (s ++ [c]) = dropWhile p s ++ [c].
Proof.
  intros Hc. induction s as [|d s IH]; simpl.
  - by rewrite Hc.
  - destruct (p d); [exact IH | reflexivity].
Qed.

Lemma leadingWhite_dropWhile s : leadingWhite (dropWhile isWhite s) = false.
Proof.
  induction s as [|c s IH]; simpl; [done|].
  destruct (isWhite c) eqn:Hc; [exact IH|].
  unfold leadingWhite. simpl. exact Hc.
Qed.

Lemma trailingWhite_trimEnd s : trailingWhite (trimEnd s) = false.
Proof.
  unfold trailingWhite, trimEnd. rewrite last_reverse.
  apply leadingWhite_dropWhile.
Qed.

Lemma trimEnd_cons c s :
  isWhite c = false → ∃ s', trimEnd (c :: s) = c :: s'.
Proof.
  intros Hc. unfold trimEnd. rewrite reverse_cons.
  rewrite dropWhile_app_stop by done. rewrite reverse_snoc. eauto.
Qed.

Lemma trimEnd_id s : trailingWhite s = false → trimEnd s = s.
Proof.
  unfold trailingWhite, trimEnd. rewrite <- head_reverse.
  intros H. destruct (reverse s) as [|c r] eqn:Hr; simpl in *.
  - by rewrite <- (reverse_involutive s), Hr.
  - rewrite H. by rewrite <- Hr, reverse_involutive.
Qed.

Lemma trimStart_id s : leadingWhite s = false → trimStart s = s.
Proof.
  unfold leadingWhite, trimStart. destruct s as [|c s]; simpl; [done|].
  by intros ->.
Qed.

Lemma trim_isTrimmed s : isTrimmed (trim s) = true.
Proof.
  unfold isTrimmed, trim. rewrite trailingWhite_trimEnd.
  pose proof (leadingWhite_dropWhile s) as H. fold (trimStart s) in H.
  destruct (trimStart s) as [|c s'] eqn:E; [done|].
  unfold leadingWhite in H. simpl in H.
  destruct (trimEnd_cons c s' H) as [s'' ->].
  unfold leadingWhite. simpl. by rewrite H.
Qed.

Lemma trim_id s : isTrimmed s = true → trim s = s.
Proof.
  unfold isTrimmed, trim. intros [H1 H2]%andb_true_iff.
  apply negb_true_iff in H1, H2.
  rewrite trimStart_id by done. by apply trimEnd_id.
Qed.

Lemma trim_leadingWhite s : leadingWhite (trim s) = false.
Proof.
  pose proof (trim_isTrimmed s) as H. unfold isTrimmed in H.
  apply andb_true_iff in H as [H _]. by apply negb_true_iff in H.
Qed.

Lemma trim_trailingWhite s : trailingWhite (trim s) = false.
Proof.
  pose proof (trim_isTrimmed s) as H. unfold isTrimmed in H.
  apply andb_true_iff in H as [_ H]. by apply negb_true_iff in H.
Qed.

(** *** The white-space split *)

Lemma splitWs_cons_inv s : ∃ w ws, splitWs s = w :: ws.
Proof.
  induction s as [|c s IH]; simpl; [eauto|].
  destruct (isWhite c).
  - destruct s as [|c' s]; [eauto|].
    destruct (isWhite c'); [exact IH | eauto].
  - destruct IH as (w & ws & ->). eauto.
Qed.

Lemma splitWs_whiteFree s : Forall (λ t, whiteFree t = true) (splitWs s).
Proof.
  induction s as [|c s IH]; simpl.
  - by repeat constructor.
  - destruct (isWhite c) eqn:Hc.
    + destruct s as [|c' s]; [by repeat constructor|].
      destruct (isWhite c'); [exact IH | by constructor].
    + destruct (splitWs s) as [|w ws].
      { repeat constructor. simpl. by rewrite Hc. }
      inversion IH; subst. constructor; [|done]. simpl. by rewrite Hc.
Qed.

Lemma splitWs_head c s :
  isWhite c = false → ∃ w ws, splitWs (c :: s) = (c :: w) :: ws.
Proof.
  intros Hc. simpl. rewrite Hc.
  destruct (splitWs_cons_inv s) as (w & ws & ->). eauto.
Qed.

Lemma trailingWhite_cons_cons c c' s :
  trailingWhite (c :: c' :: s) = trailingWhite (c' :: s).
Proof. unfold trailingWhite. by rewrite last_cons_cons. Qed.

Lemma splitWs_cons c s :
  splitWs (c :: s) =
  if isWhite c then
    match s with
    | c' :: _ => if isWhite c' then splitWs s else [] :: splitWs s
    | [] => [] :: splitWs s
    end
  else match splitWs s with
       | w :: ws => (c :: w) :: ws
       | [] => [[c]]
       end.
Proof. reflexivity. Qed.

Lemma splitWs_tail_nonempty s :
  trailingWhite s = false → Forall (λ t, t ≠ []) (tail (splitWs s)).
Proof.
  induction s as [|c s IH]; intros Ht; [constructor|].
  rewrite splitWs_cons.
  destruct (isWhite c) eqn:Hc.
  - destruct s as [|c' s].
    + unfold trailingWhite in Ht. simpl in Ht. congruence.
    + rewrite trailingWhite_cons_cons in Ht.
      destruct (isWhite c') eqn:Hc'; [by apply IH|].
      pose proof (IH Ht) as IH'.
      destruct (splitWs_head c' s Hc') as (w & ws & E).
      rewrite E in IH' |- *. by constructor.
  - assert (Forall (λ t, t ≠ []) (tail (splitWs s))) as IH'.
    { destruct s as [|c' s]; [simpl; constructor|].
      rewrite trailingWhite_cons_cons in Ht. by apply IH. }
    destruct (splitWs s) as [|w ws]; [constructor | exact IH'].
Qed.

(** The tokens of a non-empty trimmed string are non-empty and free of white
    space. *)
Lemma splitWs_trimmed s :
  isTrimmed s = true → s ≠ [] →
  Forall (λ t, t ≠ [] ∧ whiteFree t = true) (splitWs s).
Proof.
  unfold isTrimmed. intros [H1 H2]%andb_true_iff Hs.
  apply negb_true_iff in H1, H2.
  pose proof (splitWs_whiteFree s) as Hw.
  pose proof (splitWs_tail_nonempty s H2) as Hn.
  destruct s as [|c s]; [done|].
  unfold leadingWhite in H1. simpl in H1.
  destruct (splitWs_head c s H1) as (w & ws & E).
  rewrite E in Hw, Hn |- *. simpl in Hn.
  inversion Hw; subst. constructor; [done|].
  rewrite Forall_forall in Hn. rewrite Forall_forall in H4.
  apply Forall_forall. intros t Ht. split; auto.
Qed.

Lemma splitWs_length_nil s : 2 ≤ length (splitWs s) → s ≠ [].
Proof. intros H ->. simpl in H. lia. Qed.

End Strings.

(** ** Joining tokens *)

Section Join.

Implicit Types (s t : list N) (c : N) (ts : list (list N)).

Lemma join_cons_cons sp t t' ts :
  join sp (t :: t' :: ts) = t ++ sp ++ join sp (t' :: ts).
Proof. reflexivity. Qed.

Lemma whiteFree_elem t c : whiteFree t = true → c ∈ t → isWhite c = false.
Proof.
  unfold whiteFree. rewrite forallb_forall. intros H Hc.
  apply list_elem_of_In in Hc. apply H in Hc. by apply negb_true_iff.
Qed.

Lemma whiteFree_leading t : whiteFree t = true → leadingWhite t = false.
Proof.
  intros H. unfold leadingWhite. destruct t as [|c t]; [done|]. simpl.
  apply (whiteFree_elem _ _ H). by left.
Qed.

Lemma whiteFree_trailing t : whiteFree t = true → trailingWhite t = false.
Proof.
  intros H. unfold trailingWhite. destruct (last t) as [c|] eqn:E; [|done].
  simpl. apply (whiteFree_elem _ _ H). by apply last_Some_elem_of.
Qed.

Lemma leadingWhite_app t s : t ≠ [] → leadingWhite (t ++ s) = leadingWhite t.
Proof. by destruct t. Qed.

Lemma trailingWhite_app t s : s ≠ [] → trailingWhite (t ++ s) = trailingWhite s.
Proof.
  intros Hs. unfold trailingWhite. rewrite last_app.
  destruct (last s) eqn:E; [done|]. by apply last_None in E.
Qed.

Lemma hasWhiteRun_app_free t s :
  whiteFree t = true → hasWhiteRun (t ++ s) = hasWhiteRun s.
Proof.
  induction t as [|c t IH]; [done|]. simpl.
  intros [Hc Ht]%andb_true_iff. apply negb_true_iff in Hc.
  rewrite Hc. simpl. by apply IH.
Qed.

(** Joining non-empty tokens without white space by single spaces gives a
    non-empty string with no white space at its ends and no two white-space
    characters in a row. *)
Lemma join_tokens ts :
  Forall (λ t, t ≠ [] ∧ whiteFree t = true) ts → ts ≠ [] →
  join space ts ≠ []
  ∧ leadingWhite (join space ts) = false
  ∧ trailingWhite (join space ts) = false
  ∧ hasWhiteRun (join space ts) = false.
Proof.
  induction ts as [|t ts IH]; [done|]. intros Hall _.
  inversion Hall as [|? ? [Hne Hfree] Hrest]; subst.
  destruct ts as [|t' ts].
  - simpl. repeat split; auto using whiteFree_leading, whiteFree_trailing.
    rewrite <- (app_nil_r t). by rewrite hasWhiteRun_app_free.
  - destruct (IH Hrest) as (Hj & Hl & Ht & Hr); [done|].
    rewrite join_cons_cons. set (j := join space (t' :: ts)) in *.
    repeat split.
    + destruct t; [done | discriminate].
    + rewrite leadingWhite_app by done. by apply whiteFree_leading.
    + rewrite app_assoc. by rewrite trailingWhite_app.
    + rewrite hasWhiteRun_app_free by done. simpl. by rewrite Hl, Hr.
Qed.

Lemma join_tokens_trim ts :
  Forall (λ t, t ≠ [] ∧ whiteFree t = true) ts → ts ≠ [] →
  trim (join space ts) = join space ts.
Proof.
  intros H Hne. destruct (join_tokens ts H Hne) as (_ & Hl & Ht & _).
  apply trim_id. unfold isTrimmed. by rewrite Hl, Ht.
Qed.

End Join.

(** ** The indices of the numeric tokens *)

Section NumericIndices.

Implicit Types (ts tokens : list (list N)) (n k : nat).

Lemma numericIndicesFrom_length n ts :
  length (numericIndicesFrom n ts)
  = length (filter (λ t, isNumericToken t = true) ts).
Proof.
  revert n. induction ts as [|t ts IH]; intros n; [done|]. simpl.
  rewrite filter_cons. destruct (isNumericToken t) eqn:E.
  - rewrite decide_True by done. simpl. by rewrite IH.
  - rewrite decide_False by congruence. apply IH.
Qed.

Lemma numericIndicesFrom_ge n ts :
  Forall (λ i, n ≤ i) (numericIndicesFrom n ts).
Proof.
  revert n. induction ts as [|t ts IH]; intros n; simpl; [constructor|].
  assert (Forall (λ i, n ≤ i) (numericIndicesFrom (S n) ts)) as H.
  { eapply Forall_impl; [apply IH|]. simpl. lia. }
  destruct (isNumericToken t); [by constructor | done].
Qed.

Lemma numericIndicesFrom_nil n ts j t :
  numericIndicesFrom n ts = [] → ts !! j = Some t → isNumericToken t = false.
Proof.
  revert n j. induction ts as [|t0 ts IH]; intros n j; simpl; [done|].
  destruct (isNumericToken t0) eqn:E; [done|]. intros Hnil.
  destruct j as [|j]; simpl; [congruence | by apply (IH (S n))].
Qed.

(** The last index collected is the position of the last numeric token. *)
Lemma numericIndicesFrom_last n ts k :
  last (numericIndicesFrom n ts) = Some k →
  n ≤ k
  ∧ (∃ t, ts !! (k - n) = Some t ∧ isNumericToken t = true)
  ∧ (∀ j t, k - n < j → ts !! j = Some t → isNumericToken t = false).
Proof.
  revert n. induction ts as [|t0 ts IH]; intros n; simpl; [done|].
  destruct (isNumericToken t0) eqn:E.
  - destruct (numericIndicesFrom (S n) ts) as [|x L] eqn:EL.
    + simpl. intros [= <-]. split; [lia|]. split.
      * exists t0. by rewrite Nat.sub_diag.
      * intros j t Hj. destruct j as [|j]; [lia|]. simpl.
        by apply (numericIndicesFrom_nil (S n)).
    + rewrite last_cons_cons. intros Hk.
      destruct (IH (S n)) as (Hle & (t & Ht & Hnum) & Hafter).
      { by rewrite EL. }
      split; [lia|]. split.
      * exists t. replace (k - n) with (S (k - S n)) by lia. done.
      * intros j t' Hj. destruct j as [|j]; [lia|]. simpl.
        apply Hafter. lia.
  - intros Hk. destruct (IH (S n) Hk) as (Hle & (t & Ht & Hnum) & Hafter).
    split; [lia|]. split.
    + exists t. replace (k - n) with (S (k - S n)) by lia. done.
    + intros j t' Hj. destruct j as [|j]; [lia|]. simpl.
      apply Hafter. lia.
Qed.

(** With two indices or more, the last one is not the first position. *)
Lemma numericIndicesFrom_last_pos n ts k :
  2 ≤ length (numericIndicesFrom n ts) →
  last (numericIndicesFrom n ts) = Some k → n < k.
Proof.
  revert n. induction ts as [|t0 ts IH]; intros n; simpl; [lia|].
  destruct (isNumericToken t0).
  - simpl. intros Hlen Hk.
    destruct (numericIndicesFrom (S n) ts) as [|x L] eqn:EL; [simpl in Hlen; lia|].
    rewrite last_cons_cons, <- EL in Hk.
    pose proof (numericIndicesFrom_ge (S n) ts) as Hge.
    rewrite Forall_forall in Hge.
    specialize (Hge k (last_Some_elem_of _ _ Hk)). lia.
  - intros Hlen Hk. specialize (IH (S n) Hlen Hk). lia.
Qed.

Lemma numericTokenIndices_last tokens k :
  last (numericTokenIndices tokens) = Some k →
  (∃ t, tokens !! k = Some t ∧ isNumericToken t = true)
  ∧ (∀ j t, k < j → tokens !! j = Some t → isNumericToken t = false).
Proof.
  intros H. apply numericIndicesFrom_last in H as (_ & H1 & H2).
  rewrite Nat.sub_0_r in H1, H2. done.
Qed.

End NumericIndices.

(** ** The tokenizer *)

Section Tokenizer.

Implicit Types (input s : list N) (k : nat).

Lemma split_head s : head (split comma s) = Some (beforeComma s).
Proof.
  induction s as [|c s IH]; simpl; [done|].
  destruct (c =? comma)%N; [done|].
  destruct (split comma s) as [|w ws]; simpl in *; congruence.
Qed.

Lemma headOf_headText input : headOf input = Some (headText input).
Proof.
  unfold headOf, headText. rewrite <- head_lookup, split_head. done.
Qed.

Lemma headText_trimmed input : isTrimmed (headText input) = true.
Proof. apply trim_isTrimmed. Qed.

Lemma tokensOf_tokens input :
  2 ≤ length (tokensOf input) →
  Forall (λ t, t ≠ [] ∧ whiteFree t = true) (tokensOf input).
Proof.
  intros H. apply splitWs_trimmed; [apply headText_trimmed|].
  by apply splitWs_length_nil.
Qed.

(** The street of a branch that returns a number: trimming the joined
    tokens changes nothing. *)
Lemma street_of_tokens input k :
  0 < k → 2 ≤ length (tokensOf input) →
  trim (join space (take k (tokensOf input)))
  = join space (take k (tokensOf input)).
Proof.
  intros Hk Hlen. apply join_tokens_trim.
  - apply Forall_take. by apply tokensOf_tokens.
  - destruct (tokensOf input) as [|t ts]; [simpl in Hlen; lia|].
    destruct k; [lia | done].
Qed.

Lemma numericCount_le tokens : numericCount tokens ≤ length tokens.
Proof. apply length_filter. Qed.

Lemma extractStreetAndNumber_cases input :
  TokenizerCase input (extractStreetAndNumber input).
Proof.
  unfold extractStreetAndNumber. rewrite headOf_headText. simpl.
  fold (tokensOf input).
  pose proof (numericIndicesFrom_length 0 (tokensOf input)) as Hlen.
  fold (numericTokenIndices (tokensOf input)) in Hlen.
  fold (numericCount (tokensOf input)) in Hlen.
  pose proof (numericCount_le (tokensOf input)) as Hle.
  set (idxs := numericTokenIndices (tokensOf input)) in *.
  case_bool_decide as H2.
  - (* two numeric tokens or more *)
    rewrite Nat.sub_1_r, <- last_lookup.
    destruct (last idxs) as [k|] eqn:Hk.
    2:{ apply last_None in Hk. rewrite Hk in H2. simpl in H2. lia. }
    simpl.
    destruct (numericTokenIndices_last _ _ Hk) as ((num & Hnum & Hn) & _).
    rewrite Hnum. simpl.
    assert (0 < k) as Hpos by (by apply (numericIndicesFrom_last_pos 0 (tokensOf input))).
    rewrite street_of_tokens by lia.
    eapply NumberCase; eauto; left; lia.
  - case_bool_decide as H1.
    + (* exactly one numeric token *)
      destruct idxs as [|k [|? ?]] eqn:E; simpl in H1; try lia. simpl.
      assert (last idxs = Some k) as Hk by (by rewrite E).
      destruct (numericTokenIndices_last _ _ Hk) as ((num & Hnum & Hn) & _).
      destruct (bool_decide (k = length (tokensOf input) - 1)
                && bool_decide (0 < k)) eqn:Hb.
      * apply andb_true_iff in Hb as [Hb1 Hb2].
        apply bool_decide_eq_true in Hb1, Hb2.
        rewrite Hnum. simpl. rewrite street_of_tokens by lia.
        eapply NumberCase; eauto; right; simpl in Hlen; lia.
      * eapply SingleElsewhereCase; [done|].
        apply andb_false_iff in Hb as [Hb|Hb];
          apply bool_decide_eq_false in Hb; tauto.
    + (* no numeric token *)
      apply NoNumericCase. lia.
Qed.

End Tokenizer.

Section TokenizerProperties.

Implicit Types (input : list N) (h : ParsedHint).

Lemma numericTokenIndices_length tokens :
  length (numericTokenIndices tokens) = numericCount tokens.
Proof. apply numericIndicesFrom_length. Qed.

Lemma isNumericToken_digit (n : list N) :
  isNumericToken n = true → ∃ c n', n = c :: n' ∧ isDigit c = true.
Proof.
  destruct n as [|c n']; simpl; [done|].
  intros [H _]%andb_true_iff. eauto.
Qed.

(** C2: when the head of the input has two numeric tokens or more, the
    tokenizer returns the last numeric token as the number and the tokens
    before it, joined by single spaces, as the street; "Ruta 8 1518" gives
    the street "Ruta 8" and the number "1518". *)
Theorem tokenizer_two_or_more_numeric :
  (∀ input,
     2 ≤ numericCount (tokensOf input) →
     ∃ k num,
       tokensOf input !! k = Some num
       ∧ isNumericToken num = true
       ∧ (∀ j t, k < j → tokensOf input !! j = Some t →
                 isNumericToken t = false)
       ∧ extractStreetAndNumber input
         = Some {| street := join space (take k (tokensOf input));
                   number := Some num |})
  ∧ extractStreetAndNumber (lit "Ruta 8 1518")
    = Some {| street := lit "Ruta 8"; number := Some (lit "1518") |}.
Proof.
  split; [|reflexivity].
  intros input Hcount.
  pose proof (extractStreetAndNumber_cases input) as Hcase.
  remember (extractStreetAndNumber input) as r eqn:Hr.
  destruct Hcase as [k num Hlast Hpos Hwhy Hnum Hn | k Hone Hnot | Hzero].
  - exists k, num. repeat split; try done.
    by apply (numericTokenIndices_last _ _ Hlast).
  - pose proof (numericTokenIndices_length (tokensOf input)) as Hlen.
    rewrite Hone in Hlen. simpl in Hlen. lia.
  - lia.
Qed.

(** C3: when the head has exactly one numeric token, that token is the
    number, with the tokens before it joined as the street, only if it is the
    last token and not the first; otherwise the whole head is the street and
    the number is null.  "9 de Julio" keeps its head and has no number;
    "Okinawa 1518, Ze" gives "Okinawa" and "1518". *)
Theorem tokenizer_one_numeric :
  (∀ input,
     numericCount (tokensOf input) = 1 →
     ∃ k num,
       tokensOf input !! k = Some num
       ∧ isNumericToken num = true
       ∧ extractStreetAndNumber input
         = Some (if bool_decide (k = length (tokensOf input) - 1 ∧ 0 < k)
                 then {| street := join space (take k (tokensOf input));
                         number := Some num |}
                 else {| street := headText input; number := None |}))
  ∧ extractStreetAndNumber (lit "9 de Julio")
    = Some {| street := lit "9 de Julio"; number := None |}
  ∧ extractStreetAndNumber (lit "Okinawa 1518, Ze")
    = Some {| street := lit "Okinawa"; number := Some (lit "1518") |}.
Proof.
  split; [|split; reflexivity].
  intros input Hcount.
  pose proof (numericTokenIndices_length (tokensOf input)) as Hlen.
  rewrite Hcount in Hlen.
  destruct (numericTokenIndices (tokensOf input)) as [|k0 [|? ?]] eqn:Hidx;
    simpl in Hlen; try lia.
  assert (last (numericTokenIndices (tokensOf input)) = Some k0) as Hk0
    by (by rewrite Hidx).
  destruct (numericTokenIndices_last _ _ Hk0) as ((num0 & Hnum0 & Hn0) & _).
  exists k0, num0. split; [done|]. split; [done|].
  pose proof (extractStreetAndNumber_cases input) as Hcase.
  remember (extractStreetAndNumber input) as r eqn:Hr.
  destruct Hcase as [k num Hlast Hpos Hwhy Hnum Hn | k Hone Hnot | Hzero].
  - rewrite Hk0 in Hlast. injection Hlast as <-.
    destruct Hwhy as [?|[_ Hend]]; [lia|].
    rewrite bool_decide_eq_true_2 by done. congruence.
  - rewrite Hidx in Hone. injection Hone as <-.
    by rewrite bool_decide_eq_false_2.
  - lia.
Qed.

(** C7, as the code has it: the street the tokenizer returns has no white
    space at its ends in every branch; it has no two white-space characters
    in a row in the branches that return a number, and it is the head as
    typed in the branches that return no number. *)
Theorem street_trimmed input h :
  extractStreetAndNumber input = Some h →
  isTrimmed (street h) = true
  ∧ match number h with
    | Some _ => hasWhiteRun (street h) = false
    | None => street h = headText input
    end.
Proof.
  intros Hh.
  pose proof (extractStreetAndNumber_cases input) as Hcase.
  rewrite Hh in Hcase.
  inversion Hcase as [k num Hlast Hpos Hwhy Hnum Hn Heq | k Hone Hnot Heq | Hzero Heq];
    subst h; simpl.
  - assert (2 ≤ length (tokensOf input)) as Hlen.
    { apply lookup_lt_Some in Hnum. lia. }
    destruct (join_tokens (take k (tokensOf input))) as (_ & Hl & Ht & Hr).
    + apply Forall_take. by apply tokensOf_tokens.
    + destruct (tokensOf input); [simpl in Hlen; lia|]. destruct k; [lia|done].
    + unfold isTrimmed. by rewrite Hl, Ht, Hr.
  - split; [apply headText_trimmed | done].
  - split; [apply headText_trimmed | done].
Qed.

(** C9: a number the tokenizer returns is a numeric token, so it starts with
    a digit, and it comes with a non-empty street made of the tokens before
    it, of which there is at least one. *)
Theorem number_comes_with_street input h n :
  extractStreetAndNumber input = Some h →
  number h = Some n →
  isNumericToken n = true
  ∧ (∃ c n', n = c :: n' ∧ isDigit c = true)
  ∧ street h ≠ []
  ∧ ∃ k, 0 < k ∧ tokensOf input !! k = Some n
         ∧ street h = join space (take k (tokensOf input)).
Proof.
  intros Hh Hn.
  pose proof (extractStreetAndNumber_cases input) as Hcase.
  rewrite Hh in Hcase.
  inversion Hcase as [k num Hlast Hpos Hwhy Hnum Hnumeric Heq | k Hone Hnot Heq | Hzero Heq];
    subst h; simpl in *; try discriminate.
  injection Hn as <-.
  split; [done|]. split; [by apply isNumericToken_digit|].
  assert (2 ≤ length (tokensOf input)) as Hlen.
  { apply lookup_lt_Some in Hnum. lia. }
  split; [|by exists k].
  apply join_tokens.
  - apply Forall_take. by apply tokensOf_tokens.
  - destruct (tokensOf input); [simpl in Hlen; lia|]. destruct k; [lia|done].
Qed.

End TokenizerProperties.

(** ** Substrings *)

Section Substrings.

Implicit Types (s t sub pat : list N) (c a : N).

Local Arguments N.eqb : simpl never.

Lemma startsWith_spec sub s :
  startsWith sub s = true ↔ ∃ post, s = sub ++ post.
Proof.
  revert s. induction sub as [|a sub IH]; intros s; simpl.
  - split; [eauto | done].
  - destruct s as [|b s].
    + split; [done | by intros [post ?]].
    + rewrite andb_true_iff, N.eqb_eq, IH. split.
      * intros [-> [post ->]]. eauto.
      * intros [post [= -> ->]]. eauto.
Qed.

Lemma includes_unfold s sub :
  includes s sub
  = startsWith sub s || match s with [] => false | _ :: s' => includes s' sub end.
Proof. by destruct s. Qed.

Lemma includes_spec s sub : includes s sub = true ↔ Substring sub s.
Proof.
  split.
  - induction s as [|c s IH]; rewrite includes_unfold;
      intros [H|H]%orb_true_iff; try done.
    + apply startsWith_spec in H as [post ->]. by exists [], post.
    + apply startsWith_spec in H as [post ->]. by exists [], post.
    + destruct (IH H) as (pre & post & ->). by exists (c :: pre), post.
  - intros (pre & post & ->). induction pre as [|c pre IH].
    + rewrite includes_unfold. apply orb_true_iff. left.
      apply startsWith_spec. by exists post.
    + simpl. rewrite IH. apply orb_true_r.
Qed.

Lemma Substring_trans s t sub : Substring sub t → Substring t s → Substring sub s.
Proof.
  intros (p1 & q1 & ->) (p2 & q2 & ->).
  exists (p2 ++ p1), (q1 ++ q2). by rewrite <- !app_assoc.
Qed.

Lemma dropWhile_suffix p s : ∃ pre, s = pre ++ dropWhile p s.
Proof.
  induction s as [|c s [pre IH]]; simpl; [by exists []|].
  destruct (p c); [|by exists []].
  exists (c :: pre). simpl. by rewrite <- IH.
Qed.

Lemma trim_Substring s : Substring (trim s) s.
Proof.
  unfold trim, trimEnd, trimStart.
  destruct (dropWhile_suffix isWhite s) as [pre Hpre].
  destruct (dropWhile_suffix isWhite (reverse (dropWhile isWhite s)))
    as [post Hpost].
  exists pre, (reverse post).
  rewrite <- reverse_app, <- Hpost, reverse_involutive. exact Hpre.
Qed.

Lemma includes_skip p s a pat :
  Forall (λ c, c ≠ a) p → includes (p ++ s) (a :: pat) = includes s (a :: pat).
Proof.
  induction 1 as [|c p Hc _ IH]; [done|].
  simpl. apply N.eqb_neq in Hc. rewrite N.eqb_sym, Hc. exact IH.
Qed.

Lemma join_head sp c q (parts : list (list N)) :
  ∃ rest, join sp ((c :: q) :: parts) = c :: rest.
Proof. destruct parts; simpl; eauto. Qed.

(** A join of non-empty parts without commas has no two separators in a
    row. *)
Lemma join_no_doubleSep (parts : list (list N)) :
  Forall (λ p, p ≠ [] ∧ comma ∉ p) parts →
  includes (join sep parts) doubleSep = false.
Proof.
  induction parts as [|p parts IH]; [done|].
  intros Hall. inversion Hall as [|? ? [Hne Hfree] Hrest]; subst.
  assert (Forall (λ c, c ≠ comma) p) as Hp.
  { apply Forall_forall. intros c Hc ->. done. }
  destruct parts as [|p' parts].
  - simpl. rewrite <- (app_nil_r p). unfold doubleSep, sep. simpl.
    fold comma. by rewrite includes_skip.
  - rewrite join_cons_cons.
    specialize (IH Hrest).
    inversion Hrest as [|? ? [Hne' Hfree'] _]; subst.
    destruct p' as [|c' q']; [done|].
    destruct (join_head sep c' q' parts) as [rest E]. rewrite E in IH |- *.
    assert (c' ≠ comma) as Hc' by (intros ->; apply Hfree'; by left).
    apply N.eqb_neq in Hc'. unfold comma in Hc'.
    change doubleSep with (comma :: [32; 44; 32]%N) in IH |- *.
    rewrite includes_skip by done.
    unfold sep, comma in IH |- *. simpl in IH |- *.
    rewrite (N.eqb_sym 44 c'), Hc' in IH |- *.
    change (44 =? 32)%N with false. simpl in IH |- *.
    rewrite ?andb_false_r. simpl. exact IH.
Qed.

End Substrings.

(** ** The formatter *)

Section Formatter.

Implicit Types (r : NominatimResult) (addr : Address) (h : ParsedHint)
  (inj : option ParsedHint) (n s p : list N).

Local Arguments N.eqb : simpl never.

Lemma truthy_nonempty s : truthy s = true ↔ s ≠ [].
Proof. destruct s; simpl; split; congruence. Qed.

Lemma format_with_address r addr inj :
  address r = Some addr →
  formatArgentinianAddress r inj
  = if truthy (trim (join sep (formatParts addr inj)))
    then trim (join sep (formatParts addr inj)) else display_name r.
Proof. unfold formatArgentinianAddress. by intros ->. Qed.

Lemma formatParts_hint addr h n :
  number h = Some n → n ≠ [] →
  formatParts addr (Some h) = formatParts (withHintFields h n addr) None.
Proof.
  intros Hn Hne. unfold formatParts, hintNumber, hintStreet. simpl.
  rewrite Hn. destruct n as [|c n]; [done|]. simpl.
  by destruct (street h).
Qed.

(** C1: with a hint whose number is present, the formatter works as on the
    record that has the hint's number as its house number and, when the
    hint's street is not empty, the hint's street as its road, whatever the
    record's own road is; the record of "Av. José Andrés López 200" with the
    hint "Calle 844", "1518" gives "Calle 844 1518, Ze, Buenos Aires". *)
Theorem hint_overrides_number_and_street :
  (∀ r h n,
     number h = Some n → n ≠ [] →
     formatArgentinianAddress r (Some h)
     = formatArgentinianAddress
         (withAddress r (withHintFields h n <$> address r)) None)
  ∧ formatArgentinianAddress recLopez (Some hint844)
    = lit "Calle 844 1518, Ze, Buenos Aires".
Proof.
  split; [|reflexivity].
  intros r h n Hn Hne. unfold formatArgentinianAddress, withAddress. simpl.
  destruct (address r) as [addr|]; simpl; [|done].
  by rewrite (formatParts_hint addr h n).
Qed.

(** C5: without an address object the formatter returns the display name;
    when the joined parts are empty after trimming it returns the display
    name too; so its result is not empty when the display name is not. *)
Theorem format_falls_back_to_display_name :
  (∀ r inj, address r = None → formatArgentinianAddress r inj = display_name r)
  ∧ (∀ r addr inj,
       address r = Some addr →
       trim (join sep (formatParts addr inj)) = [] →
       formatArgentinianAddress r inj = display_name r)
  ∧ (∀ r inj, display_name r ≠ [] → formatArgentinianAddress r inj ≠ []).
Proof.
  repeat split.
  - intros r inj Ha. unfold formatArgentinianAddress. by rewrite Ha.
  - intros r addr inj Ha He. rewrite (format_with_address r addr) by done.
    by rewrite He.
  - intros r inj Hd. unfold formatArgentinianAddress.
    destruct (address r) as [addr|]; [|done].
    destruct (trim (join sep (formatParts addr inj))) eqn:E; simpl; done.
Qed.

Lemma pushIf_nonempty s : Forall (λ p, p ≠ []) (pushIf s).
Proof. unfold pushIf. destruct s; simpl; repeat constructor. done. Qed.

Lemma streetSegment_nonempty s n : Forall (λ p, p ≠ []) (streetSegment s n).
Proof.
  unfold streetSegment. destruct s as [|c s]; simpl; [constructor|].
  repeat constructor. by destruct (truthy n).
Qed.

Lemma formatParts_nonempty addr inj : Forall (λ p, p ≠ []) (formatParts addr inj).
Proof.
  unfold formatParts.
  repeat apply Forall_app_2;
    auto using pushIf_nonempty, streetSegment_nonempty.
Qed.

Lemma formatParts_no_street addr (num : option (list N)) :
  truthyOpt (road addr) = false →
  formatParts addr (Some {| street := []; number := num |})
  = formatParts addr None.
Proof.
  intros Hroad. unfold formatParts, hintNumber, hintStreet. simpl.
  assert (orEmpty (road addr) = []) as ->.
  { destruct (road addr) as [[|? ?]|]; simpl in *; congruence. }
  unfold streetSegment. simpl. done.
Qed.

Lemma trailing_not_sep s : trailingWhite s = false → endsWith sep s = false.
Proof.
  unfold trailingWhite, endsWith. rewrite <- head_reverse.
  destruct (reverse s) as [|c t]; simpl; [done|]. intros Hc.
  destruct (32 =? c)%N eqn:E; [|done].
  apply N.eqb_eq in E. subst c. done.
Qed.

Lemma dropWhile_app_keep f p s :
  dropWhile f p ≠ [] → dropWhile f (p ++ s) = dropWhile f p ++ s.
Proof.
  induction p as [|c p IH]; simpl; [done|].
  destruct (f c); [exact IH | done].
Qed.

Lemma join_app_head sp p (parts : list (list N)) :
  ∃ rest, join sp (p :: parts) = p ++ rest.
Proof.
  destruct parts; simpl; [exists []; by rewrite app_nil_r | eauto].
Qed.

(** The trimmed join starts with a character of its first part when that
    part is not white space only. *)
Lemma trim_join_head p (parts : list (list N)) :
  trim p ≠ [] →
  ∃ c rest, c ∈ p ∧ trim (join sep (p :: parts)) = c :: rest.
Proof.
  intros Hp. destruct (join_app_head sep p parts) as [rest ->].
  assert (trimStart p ≠ []) as Hs.
  { intros E. apply Hp. unfold trim. by rewrite E. }
  unfold trim, trimStart in *. rewrite dropWhile_app_keep by done.
  pose proof (leadingWhite_dropWhile p) as Hl.
  destruct (dropWhile_suffix isWhite p) as [pre Hpre].
  destruct (dropWhile isWhite p) as [|c q]; [done|].
  unfold leadingWhite in Hl. simpl in Hl.
  destruct (trimEnd_cons c (q ++ rest) Hl) as [s' E]. simpl. rewrite E.
  exists c, s'. split; [|done]. rewrite Hpre. apply elem_of_app. right. by left.
Qed.

(** C10, as the code has it: when the formatter does not fall back, its
    result is the trimmed join of a non-empty list of non-empty parts, and it
    does not end with the separator; when no part has a comma it has no two
    separators in a row and, the first part not being white space only, it
    does not begin with the separator.  A hint number with no street, on a
    record with no road, leaves the result as it is without a hint. *)
Theorem format_joins_nonempty_parts :
  (∀ r addr inj,
     address r = Some addr →
     trim (join sep (formatParts addr inj)) ≠ [] →
     formatArgentinianAddress r inj = trim (join sep (formatParts addr inj))
     ∧ formatParts addr inj ≠ []
     ∧ Forall (λ p, p ≠ []) (formatParts addr inj)
     ∧ endsWith sep (formatArgentinianAddress r inj) = false
     ∧ (Forall (λ p, comma ∉ p) (formatParts addr inj) →
        includes (formatArgentinianAddress r inj) doubleSep = false
        ∧ ((∃ p, head (formatParts addr inj) = Some p ∧ trim p ≠ []) →
           startsWith sep (formatArgentinianAddress r inj) = false)))
  ∧ (∀ r addr (num : option (list N)),
       address r = Some addr →
       truthyOpt (road addr) = false →
       formatArgentinianAddress r (Some {| street := []; number := num |})
       = formatArgentinianAddress r None).
Proof.
  split.
  - intros r addr inj Ha Hne.
    rewrite (format_with_address r addr) by done.
    rewrite (proj2 (truthy_nonempty _)) by done.
    pose proof (formatParts_nonempty addr inj) as Hparts.
    set (parts := formatParts addr inj) in *.
    split; [done|]. split; [by intros E; rewrite E in Hne|].
    split; [done|].
    split; [apply trailing_not_sep, trim_trailingWhite|].
    intros Hfree. split.
    + destruct (includes (trim (join sep parts)) doubleSep) eqn:E; [|done].
      apply includes_spec in E.
      pose proof (Substring_trans _ _ _ E (trim_Substring _)) as E'.
      apply includes_spec in E'. rewrite join_no_doubleSep in E'; [done|].
      rewrite Forall_forall in Hparts, Hfree. apply Forall_forall.
      intros p Hp. split; auto.
    + intros (p & Hhead & Hp).
      destruct parts as [|p0 parts']; [done|]. simpl in Hhead.
      injection Hhead as ->.
      destruct (trim_join_head p parts' Hp) as (c & rest & Hc & ->).
      inversion Hfree; subst. simpl.
      destruct (44 =? c)%N eqn:E; [|done].
      apply N.eqb_eq in E. subst c. done.
  - intros r addr num Ha Hroad. unfold formatArgentinianAddress. rewrite Ha.
    by rewrite formatParts_no_street.
Qed.

End Formatter.

(** ** Deduplication *)

Section Dedupe.

Implicit Types (l rest pre mapped acc : list NominatimResult)
  (seen : gset (list N)) (m : NominatimResult).

Lemma dedupeLoop_acc seen acc l :
  dedupeLoop seen acc l = acc ++ dedupeLoop seen [] l.
Proof.
  revert seen acc. induction l as [|m l IH]; intros seen acc; simpl.
  - by rewrite app_nil_r.
  - destruct (decide (display_name m ∈ seen)); [apply IH|].
    rewrite (IH _ (acc ++ [m])), (IH _ [m]). by rewrite <- app_assoc.
Qed.

Lemma snoc_app pre m rest : (pre ++ [m]) ++ rest = pre ++ m :: rest.
Proof. by rewrite <- app_assoc. Qed.

Lemma length_snoc pre m : length (pre ++ [m]) = S (length pre).
Proof. rewrite length_app. simpl. lia. Qed.

Lemma elem_of_seen_snoc seen m (y : list N) :
  y ∈ seen ∪ list_to_set (display_name <$> [m])
  ↔ y ∈ seen ∨ y = display_name m.
Proof.
  rewrite elem_of_union, elem_of_list_to_set. simpl.
  by rewrite list_elem_of_singleton.
Qed.

Lemma seen_again seen m :
  display_name m ∈ seen →
  seen ∪ list_to_set (display_name <$> [m]) = seen.
Proof.
  intros Hin. apply set_eq. intros y. rewrite elem_of_seen_snoc.
  split; [intros [?| ->]; done | by left].
Qed.

Lemma seen_new seen m :
  seen ∪ list_to_set (display_name <$> [m]) = {[display_name m]} ∪ seen.
Proof.
  apply set_eq. intros y.
  rewrite elem_of_seen_snoc, elem_of_union, elem_of_singleton. tauto.
Qed.

(** The loop, started with the names of [pre] as the set of seen names,
    keeps of [rest] the elements at the positions of first occurrence. *)
Lemma dedupeLoop_firstOccurrences pre rest seen :
  seen = list_to_set (display_name <$> pre) →
  dedupeLoop seen [] rest
  = firstOccurrencesFrom (pre ++ rest) (length pre) rest.
Proof.
  revert pre seen. induction rest as [|m rest IH]; intros pre seen Hseen; [done|].
  simpl. rewrite take_app_length.
  assert (display_name m ∈ seen ↔ display_name m ∈ display_name <$> pre) as Hiff.
  { rewrite Hseen. apply elem_of_list_to_set. }
  rewrite <- (snoc_app pre m rest), <- (length_snoc pre m).
  destruct (decide (display_name m ∈ seen)) as [Hin|Hin];
    destruct (decide (display_name m ∈ display_name <$> pre)) as [Hin'|Hin'];
    try tauto.
  - apply IH. rewrite fmap_app, list_to_set_app_L, <- Hseen.
    by rewrite seen_again.
  - rewrite dedupeLoop_acc. simpl. f_equal.
    apply IH. rewrite fmap_app, list_to_set_app_L, <- Hseen.
    by rewrite seen_new.
Qed.

Lemma dedupe_firstOccurrences mapped : dedupe mapped = firstOccurrences mapped.
Proof. by apply (dedupeLoop_firstOccurrences []). Qed.

Lemma firstOccurrencesFrom_spec pre rest :
  NoDup (display_name <$> firstOccurrencesFrom (pre ++ rest) (length pre) rest)
  ∧ (∀ x, x ∈ display_name <$> firstOccurrencesFrom (pre ++ rest) (length pre) rest →
          x ∉ display_name <$> pre)
  ∧ firstOccurrencesFrom (pre ++ rest) (length pre) rest `sublist_of` rest
  ∧ (∀ m, m ∈ rest →
          display_name m ∈ display_name <$> pre
          ∨ display_name m
              ∈ display_name <$> firstOccurrencesFrom (pre ++ rest) (length pre) rest).
Proof.
  revert pre. induction rest as [|m rest IH]; intros pre.
  - simpl. repeat split; [constructor | by inversion 1 | done | by inversion 1].
  - simpl. rewrite take_app_length.
    rewrite <- (snoc_app pre m rest), <- (length_snoc pre m).
    destruct (IH (pre ++ [m])) as (Hnd & Hnew & Hsub & Hcov).
    set (out := firstOccurrencesFrom ((pre ++ [m]) ++ rest) (length (pre ++ [m])) rest) in *.
    assert (∀ x, x ∈ display_name <$> out →
                 x ≠ display_name m ∧ x ∉ display_name <$> pre) as Hnew'.
    { intros x Hx. specialize (Hnew x Hx). rewrite fmap_app in Hnew.
      rewrite elem_of_app in Hnew. simpl in Hnew. rewrite elem_of_cons in Hnew.
      split; [intros ->|]; tauto. }
    assert (∀ m', m' ∈ rest →
                  display_name m' = display_name m
                  ∨ display_name m' ∈ display_name <$> pre
                  ∨ display_name m' ∈ display_name <$> out) as Hcov'.
    { intros m' Hm'. destruct (Hcov m' Hm') as [H|H]; [|tauto].
      rewrite fmap_app, elem_of_app in H. simpl in H.
      rewrite elem_of_cons in H. destruct H as [H|[H|H]]; [tauto|tauto|].
      by inversion H. }
    destruct (decide (display_name m ∈ display_name <$> pre)) as [Hin|Hin].
    + split; [done|]. split; [intros x Hx; by apply Hnew'|].
      split; [by apply sublist_cons|].
      intros m' [->|Hm']%elem_of_cons; [by left|].
      destruct (Hcov' m' Hm') as [->|[?|?]]; tauto.
    + split.
      { simpl. constructor; [|done]. intros Hm. by apply Hnew' in Hm as [? _]. }
      split.
      { intros x. simpl. rewrite elem_of_cons. intros [->|Hx]; [done|].
        by apply Hnew'. }
      split; [by apply sublist_skip|].
      intros m' [->|Hm']%elem_of_cons; [right; simpl; by left|].
      destruct (Hcov' m' Hm') as [E|[?|?]]; [|tauto|].
      * right. simpl. rewrite E. by left.
      * right. simpl. by right.
Qed.

(** C6: the deduplication keeps, in the order of the list, exactly the
    elements at the positions where a formatted string occurs for the first
    time; the output has no two equal strings, is a subsequence of the
    input, and has every string of the input. *)
Theorem dedupe_keeps_first_occurrences mapped :
  dedupe mapped = firstOccurrences mapped
  ∧ NoDup (display_name <$> dedupe mapped)
  ∧ dedupe mapped `sublist_of` mapped
  ∧ (∀ m, m ∈ mapped → display_name m ∈ display_name <$> dedupe mapped).
Proof.
  rewrite dedupe_firstOccurrences. unfold firstOccurrences.
  destruct (firstOccurrencesFrom_spec [] mapped) as (Hnd & _ & Hsub & Hcov).
  simpl in *. repeat split; try done.
  intros m Hm. destruct (Hcov m Hm) as [H|H]; [by inversion H | done].
Qed.

Lemma dedupe_nil mapped : dedupe mapped = [] ↔ mapped = [].
Proof.
  split; [|by intros ->].
  destruct mapped as [|m rest]; [done|]. unfold dedupe. simpl.
  rewrite decide_False by apply not_elem_of_empty. rewrite dedupeLoop_acc. done.
Qed.

End Dedupe.

(** ** The number filter *)

Section NumberFilter.

Implicit Types (parsed : ParsedHint) (n : list N)
  (validResults results : list NominatimResult).

Lemma mapFormatted_nil parsed validResults :
  mapFormatted parsed validResults = [] ↔ validResults = [].
Proof. unfold mapFormatted. split; [apply fmap_nil_inv | by intros ->]. Qed.

Lemma dedupe_names (mapped : list NominatimResult) (d : list N) :
  d ∈ display_name <$> dedupe mapped ↔ d ∈ display_name <$> mapped.
Proof.
  rewrite dedupe_firstOccurrences. unfold firstOccurrences.
  destruct (firstOccurrencesFrom_spec [] mapped) as (_ & _ & Hsub & Hcov).
  simpl in *. split.
  - intros (m & -> & Hm)%list_elem_of_fmap.
    apply list_elem_of_fmap. exists m. split; [done|].
    by apply (elem_of_sublist _ _ _ Hm).
  - intros (m & -> & Hm)%list_elem_of_fmap.
    destruct (Hcov m Hm) as [H|H]; [by inversion H | done].
Qed.

Lemma keptByNumber_spec n (mapped : list NominatimResult) s :
  s ∈ keptByNumber n mapped ↔ s ∈ mapped ∧ Substring n (display_name s).
Proof.
  unfold keptByNumber. rewrite list_elem_of_filter.
  rewrite <- includes_spec. rewrite Is_true_true. tauto.
Qed.

(** C4: with a number in the hint, the pipeline keeps the formatted
    suggestions whose text has the number as a substring, and all of them
    when none has it: a text is among the suggestions exactly when it is a
    formatted text and either has the number in it or no formatted text has;
    so the suggestions are empty only when the formatted list is. *)
Theorem number_filter_falls_back parsed n validResults :
  number parsed = Some n → n ≠ [] →
  (∀ s, s ∈ keptByNumber n (mapFormatted parsed validResults)
        ↔ s ∈ mapFormatted parsed validResults ∧ Substring n (display_name s))
  ∧ numberFilter parsed validResults (mapFormatted parsed validResults)
    = match keptByNumber n (mapFormatted parsed validResults) with
      | [] => mapFormatted parsed validResults
      | _ :: _ => keptByNumber n (mapFormatted parsed validResults)
      end
  ∧ (numberFilter parsed validResults (mapFormatted parsed validResults) = []
     ↔ mapFormatted parsed validResults = [])
  ∧ (∀ results,
       suggestionsOf parsed results = []
       ↔ mapFormatted parsed (validResultsOf results) = [])
  ∧ (∀ results,
       suggestionsOf parsed results
       = dedupe
           match keptByNumber n (mapFormatted parsed (validResultsOf results))
           with
           | [] => mapFormatted parsed (validResultsOf results)
           | _ :: _ =>
               keptByNumber n (mapFormatted parsed (validResultsOf results))
           end)
  ∧ (∀ results (d : list N),
       d ∈ display_name <$> suggestionsOf parsed results
       ↔ d ∈ display_name <$> mapFormatted parsed (validResultsOf results)
         ∧ (Substring n d
            ∨ ∀ s, s ∈ mapFormatted parsed (validResultsOf results) →
                   ¬ Substring n (display_name s))).
Proof.
  intros Hn Hne.
  assert (∀ vr, numberFilter parsed vr (mapFormatted parsed vr)
                = match keptByNumber n (mapFormatted parsed vr) with
                  | [] => mapFormatted parsed vr
                  | _ :: _ => keptByNumber n (mapFormatted parsed vr)
                  end) as Hfilter.
  { intros vr. unfold numberFilter. rewrite Hn.
    destruct n as [|c n]; [done|]. fold (keptByNumber (c :: n) (mapFormatted parsed vr)).
    by destruct (keptByNumber (c :: n) (mapFormatted parsed vr)). }
  assert (∀ vr, numberFilter parsed vr (mapFormatted parsed vr) = []
                ↔ mapFormatted parsed vr = []) as Hempty.
  { intros vr. rewrite Hfilter.
    destruct (keptByNumber n (mapFormatted parsed vr)) eqn:E; [done|].
    split; [done|]. intros E'. rewrite E' in E. done. }
  assert (∀ results,
            suggestionsOf parsed results
            = dedupe (numberFilter parsed (validResultsOf results)
                        (mapFormatted parsed (validResultsOf results))))
    as Hpipe.
  { intros results. unfold suggestionsOf. case_bool_decide as Hlen; [|done].
    apply length_zero_iff_nil in Hlen. rewrite Hlen. simpl.
    unfold numberFilter. by destruct (number parsed) as [[|? ?]|]. }
  split; [apply keptByNumber_spec|].
  split; [apply Hfilter|]. split; [apply Hempty|].
  split; [|split].
  - intros results. rewrite Hpipe, dedupe_nil. apply Hempty.
  - intros results. by rewrite Hpipe, Hfilter.
  - intros results d. rewrite Hpipe, Hfilter, dedupe_names.
    set (mapped := mapFormatted parsed (validResultsOf results)).
    destruct (keptByNumber n mapped) as [|k kept] eqn:E.
    + assert (∀ s, s ∈ mapped → ¬ Substring n (display_name s)) as Hnone.
      { intros s Hs Hsub.
        assert (s ∈ keptByNumber n mapped) as Hin
          by (apply keptByNumber_spec; by split).
        rewrite E in Hin. by inversion Hin. }
      split; [intros Hd; split; [done | by right] | by intros [? _]].
    + rewrite <- E. split.
      * intros (s & -> & Hs)%list_elem_of_fmap.
        apply keptByNumber_spec in Hs as [Hs Hsub]. split; [|by left].
        apply list_elem_of_fmap. by exists s.
      * intros [(s & -> & Hs)%list_elem_of_fmap [Hsub|Hnone]].
        -- apply list_elem_of_fmap. exists s. split; [done|].
           apply keptByNumber_spec. by split.
        -- exfalso.
           assert (k ∈ keptByNumber n mapped) as Hk by (rewrite E; by left).
           apply keptByNumber_spec in Hk as [Hk Hsub]. by apply (Hnone k).
Qed.

End NumberFilter.

(** ** Totality *)

Section Totality.

Implicit Types (input : list N) (r : NominatimResult)
  (inj : option ParsedHint).

Lemma format_shape r inj :
  formatArgentinianAddress r inj = display_name r
  ∨ ∃ addr, address r = Some addr
            ∧ formatArgentinianAddress r inj
              = trim (join sep (formatParts addr inj))
            ∧ formatArgentinianAddress r inj ≠ [].
Proof.
  unfold formatArgentinianAddress.
  destruct (address r) as [addr|]; [|by left].
  destruct (trim (join sep (formatParts addr inj))) as [|c s] eqn:E; simpl;
    [by left|].
  right. exists addr. by rewrite E.
Qed.

Lemma legacy_tokenizer_total input :
  ∃ h, Legacy.extractStreetAndNumber input = Some h.
Proof.
  unfold Legacy.extractStreetAndNumber. rewrite headOf_headText. simpl.
  destruct (Legacy.matchStreetNumber None (headText input)) as [[g1 g2]|];
    [|eauto].
  destruct (truthy (trim g1) && truthy (trim g2)); eauto.
Qed.

Lemma legacy_format_shape lower r inj :
  Legacy.formatArgentinianAddress lower r inj = display_name r
  ∨ ∃ addr, address r = Some addr
            ∧ Legacy.formatArgentinianAddress lower r inj
              = trim (join sep (Legacy.formatParts lower addr inj))
            ∧ Legacy.formatArgentinianAddress lower r inj ≠ [].
Proof.
  unfold Legacy.formatArgentinianAddress.
  destruct (address r) as [addr|]; [|by left].
  destruct (trim (join sep (Legacy.formatParts lower addr inj)))
    as [|c s] eqn:E; simpl; [by left|].
  right. exists addr. by rewrite E.
Qed.

(** C8: the tokenizer returns a hint for every input: no index it reads is
    outside its array, and when it returns no number the street is the head;
    the formatter returns, for every record and hint, either the display
    name or the non-empty trimmed join of its parts.  The earlier copy of
    the two functions returns a value for every input as well. *)
Theorem core_functions_total :
  (∀ input, ∃ h,
      extractStreetAndNumber input = Some h
      ∧ match number h with
        | None => street h = headText input
        | Some n => isNumericToken n = true
        end)
  ∧ (∀ r inj,
       formatArgentinianAddress r inj = display_name r
       ∨ ∃ addr, address r = Some addr
                 ∧ formatArgentinianAddress r inj
                   = trim (join sep (formatParts addr inj))
                 ∧ formatArgentinianAddress r inj ≠ [])
  ∧ (∀ input, ∃ h, Legacy.extractStreetAndNumber input = Some h)
  ∧ (∀ lower r inj,
       Legacy.formatArgentinianAddress lower r inj = display_name r
       ∨ ∃ addr, address r = Some addr
                 ∧ Legacy.formatArgentinianAddress lower r inj
                   = trim (join sep (Legacy.formatParts lower addr inj))
                 ∧ Legacy.formatArgentinianAddress lower r inj ≠ []).
Proof.
  split; [|split; [apply format_shape | split;
    [apply legacy_tokenizer_total | apply legacy_format_shape]]].
  intros input.
  pose proof (extractStreetAndNumber_cases input) as Hcase.
  remember (extractStreetAndNumber input) as res eqn:Hres.
  destruct Hcase; eexists; (split; [reflexivity | simpl; done]).
Qed.

End Totality.

(** ** Sample runs *)

Example tokenize_main :
  extractStreetAndNumber (lit "Main")
  = Some {| street := lit "Main"; number := None |}.
Proof. reflexivity. Qed.

Example tokenize_lone_number :
  extractStreetAndNumber (lit "1518")
  = Some {| street := lit "1518"; number := None |}.
Proof. reflexivity. Qed.

Example tokenize_number_in_the_middle :
  extractStreetAndNumber (lit "Calle 8 bis")
  = Some {| street := lit "Calle 8 bis"; number := None |}.
Proof. reflexivity. Qed.

Example tokenize_empty :
  extractStreetAndNumber [] = Some {| street := []; number := None |}.
Proof. reflexivity. Qed.

Example format_no_address :
  formatArgentinianAddress (withAddress recLopez None) (Some hint844)
  = display_name recLopez.
Proof. reflexivity. Qed.

Example dedupe_sample :
  display_name <$> dedupe (mapFormatted hint844 [recLopez; recLopez])
  = [lit "Calle 844 1518, Ze, Buenos Aires"].
Proof. vm_compute. reflexivity. Qed.

(** The number filter at work: of two formatted results the one without
    the number is dropped, and a lone result without it is kept. *)
Example number_filter_drops :
  display_name <$> mapFormatted hintTrailing [recRuta8; recRuta9]
  = [lit "Ruta 8 5 , Ze"; lit "Ruta 9 5"]
  ∧ display_name <$> suggestionsOf hintTrailing [recRuta8; recRuta9]
    = [lit "Ruta 8 5 , Ze"].
Proof. split; vm_compute; reflexivity. Qed.

Example number_filter_keeps_lone_result :
  display_name <$> suggestionsOf hintTrailing [recRuta9] = [lit "Ruta 9 5"].
Proof. vm_compute. reflexivity. Qed.

(** Enter on the shown list: with nothing selected it reports the typed
    text without details, and the application writes no file; with the second
    suggestion selected it reports that suggestion, whose text the
    application writes. *)
Example enter_nothing_selected :
  handleKeyDown (lit "Enter")
    (mkState (lit "Calle") [recLopez; recCommaTown] false true (-1))
  = Some (mkState (lit "Calle") [recLopez; recCommaTown] false true (-1),
          [PreventDefault; OnAddressSelect (lit "Calle") None])
  ∧ savedFiles
      (deliver [PreventDefault; OnAddressSelect (lit "Calle") None] []).2
    = [].
Proof. split; vm_compute; reflexivity. Qed.

Example enter_second_selected :
  handleKeyDown (lit "Enter")
    (mkState (lit "Calle") [recLopez; recCommaTown] false true 1)
  = Some (mkState (display_name recCommaTown) [] false false (-1),
          [PreventDefault;
           OnAddressSelect (display_name recCommaTown) (Some recCommaTown)])
  ∧ savedFiles
      (deliver [PreventDefault;
                OnAddressSelect (display_name recCommaTown)
                  (Some recCommaTown)] []).2
    = [display_name recCommaTown].
Proof. split; vm_compute; reflexivity. Qed.

(** The earlier copy keeps the record's road and number for the hint
    "Calle 844", "1518", as the two street names do not overlap, and drops
    the street "9 de Julio" from its first digit on. *)
Example legacy_format_lopez :
  Legacy.formatArgentinianAddress (fmap Legacy.lowerLatin1) recLopez
    (Some hint844)
  = avLopez ++ lit " 200, Ze, Buenos Aires".
Proof. vm_compute. reflexivity. Qed.

Example legacy_tokenize_9_de_julio :
  Legacy.extractStreetAndNumber (lit "9 de Julio")
  = Some {| street := []; number := None |}.
Proof. reflexivity. Qed.

Example legacy_tokenize_ruta :
  Legacy.extractStreetAndNumber (lit "Ruta 8 1518")
  = Some {| street := lit "Ruta 8"; number := Some (lit "1518") |}.
Proof. reflexivity. Qed.

(** ** The statements at sample inputs *)

Lemma hint_overrides_number_and_street_sample :
  formatArgentinianAddress recLopez (Some hint844)
  = formatArgentinianAddress
      (withAddress recLopez
         (withHintFields hint844 (lit "1518") <$> address recLopez)) None.
Proof.
  apply (proj1 hint_overrides_number_and_street recLopez hint844 (lit "1518")).
  - reflexivity.
  - vm_compute. discriminate.
Defined.

Lemma tokenizer_two_or_more_numeric_sample :
  2 ≤ numericCount (tokensOf (lit "Ruta 8 1518"))
  ∧ ∃ k num,
      tokensOf (lit "Ruta 8 1518") !! k = Some num
      ∧ isNumericToken num = true
      ∧ (∀ j t, k < j → tokensOf (lit "Ruta 8 1518") !! j = Some t →
                isNumericToken t = false)
      ∧ extractStreetAndNumber (lit "Ruta 8 1518")
        = Some {| street := join space (take k (tokensOf (lit "Ruta 8 1518")));
                  number := Some num |}.
Proof.
  split.
  - vm_compute. lia.
  - apply (proj1 tokenizer_two_or_more_numeric (lit "Ruta 8 1518")).
    vm_compute. lia.
Defined.

Lemma tokenizer_one_numeric_sample :
  numericCount (tokensOf (lit "Okinawa 1518, Ze")) = 1
  ∧ ∃ k num,
      tokensOf (lit "Okinawa 1518, Ze") !! k = Some num
      ∧ isNumericToken num = true
      ∧ extractStreetAndNumber (lit "Okinawa 1518, Ze")
        = Some (if bool_decide
                     (k = length (tokensOf (lit "Okinawa 1518, Ze")) - 1 ∧ 0 < k)
                then {| street :=
                          join space (take k (tokensOf (lit "Okinawa 1518, Ze")));
                        number := Some num |}
                else {| street := headText (lit "Okinawa 1518, Ze");
                        number := None |}).
Proof.
  split.
  - reflexivity.
  - apply (proj1 tokenizer_one_numeric (lit "Okinawa 1518, Ze")). reflexivity.
Defined.

Lemma number_filter_falls_back_sample :
  suggestionsOf hintTrailing [recRuta8; recRuta9]
  = dedupe
      match keptByNumber (lit "5 ")
              (mapFormatted hintTrailing (validResultsOf [recRuta8; recRuta9]))
      with
      | [] => mapFormatted hintTrailing (validResultsOf [recRuta8; recRuta9])
      | _ :: _ =>
          keptByNumber (lit "5 ")
            (mapFormatted hintTrailing (validResultsOf [recRuta8; recRuta9]))
      end
  ∧ (lit "Ruta 9 5"
       ∈ display_name <$> suggestionsOf hintTrailing [recRuta8; recRuta9]
     ↔ lit "Ruta 9 5"
         ∈ display_name <$>
             mapFormatted hintTrailing (validResultsOf [recRuta8; recRuta9])
       ∧ (Substring (lit "5 ") (lit "Ruta 9 5")
          ∨ ∀ s,
              s ∈ mapFormatted hintTrailing
                    (validResultsOf [recRuta8; recRuta9]) →
              ¬ Substring (lit "5 ") (display_name s))).
Proof.
  destruct (number_filter_falls_back hintTrailing (lit "5 ") [])
    as (_ & _ & _ & _ & Hpipe & Hnames).
  - reflexivity.
  - vm_compute. discriminate.
  - split; [apply Hpipe | apply Hnames].
Defined.

Lemma format_falls_back_to_display_name_sample :
  formatArgentinianAddress (withAddress recLopez None) (Some hint844)
  = display_name recLopez
  ∧ formatArgentinianAddress recNoFields None = display_name recNoFields
  ∧ formatArgentinianAddress recLopez None ≠ [].
Proof.
  split; [|split].
  - apply (proj1 format_falls_back_to_display_name
             (withAddress recLopez None) (Some hint844)).
    reflexivity.
  - apply (proj1 (proj2 format_falls_back_to_display_name)
             recNoFields noAddress None); reflexivity.
  - apply (proj2 (proj2 format_falls_back_to_display_name) recLopez None).
    vm_compute. discriminate.
Defined.

Lemma street_trimmed_sample :
  isTrimmed (lit "Ruta 8") = true ∧ hasWhiteRun (lit "Ruta 8") = false.
Proof.
  exact (street_trimmed (lit "Ruta 8 1518")
           {| street := lit "Ruta 8"; number := Some (lit "1518") |} eq_refl).
Defined.

Lemma number_comes_with_street_sample :
  isNumericToken (lit "1518") = true
  ∧ (∃ c n', lit "1518" = c :: n' ∧ isDigit c = true)
  ∧ lit "Okinawa" ≠ []
  ∧ ∃ k, 0 < k ∧ tokensOf (lit "Okinawa 1518, Ze") !! k = Some (lit "1518")
         ∧ lit "Okinawa" = join space (take k (tokensOf (lit "Okinawa 1518, Ze"))).
Proof.
  exact (number_comes_with_street (lit "Okinawa 1518, Ze")
           {| street := lit "Okinawa"; number := Some (lit "1518") |}
           (lit "1518") eq_refl eq_refl).
Defined.

Lemma format_joins_nonempty_parts_sample :
  (includes (formatArgentinianAddress recLopez (Some hint844)) doubleSep = false
   ∧ startsWith sep (formatArgentinianAddress recLopez (Some hint844)) = false
   ∧ endsWith sep (formatArgentinianAddress recLopez (Some hint844)) = false)
  ∧ formatArgentinianAddress recBlankTown
      (Some {| street := []; number := Some (lit "1518") |})
    = formatArgentinianAddress recBlankTown None.
Proof.
  split.
  - destruct (proj1 format_joins_nonempty_parts recLopez
                (default noAddress (address recLopez)) (Some hint844))
      as (_ & _ & _ & Hend & Hfree).
    + reflexivity.
    + vm_compute. discriminate.
    + destruct Hfree as [Hdouble Hstart].
      * apply (bool_decide_unpack _). vm_compute. exact I.
      * split; [exact Hdouble|]. split; [|exact Hend].
        apply Hstart. eexists. split; [reflexivity|].
        vm_compute. discriminate.
  - apply (proj2 format_joins_nonempty_parts recBlankTown addrBlankTown);
      reflexivity.
Defined.

(** ** Where two statements of the specification fail *)

(** C7 as written fails: for "San  Martin", with two spaces, the tokenizer
    returns the head as typed. *)
Lemma street_keeps_inner_spaces :
  extractStreetAndNumber (lit "San  Martin")
  = Some {| street := lit "San  Martin"; number := None |}
  ∧ hasWhiteRun (lit "San  Martin") = true
  ∧ ¬ (∀ input h,
         extractStreetAndNumber input = Some h →
         isTrimmed (street h) = true ∧ hasWhiteRun (street h) = false).
Proof.
  split; [reflexivity|]. split; [reflexivity|].
  intros H.
  destruct (H (lit "San  Martin")
              {| street := lit "San  Martin"; number := None |} eq_refl)
    as [_ Hrun].
  vm_compute in Hrun. discriminate.
Qed.

(** C10 as written fails: a town that is a comma and a space gives two
    separators in a row, and a town that is one space, on a record without a
    road, gives a result that begins with the separator. *)
Lemma format_can_repeat_separator :
  formatArgentinianAddress recCommaTown None = lit "Ruta 8, , , Buenos Aires"
  ∧ formatArgentinianAddress recBlankTown None = lit ", Buenos Aires"
  ∧ ¬ (∀ r addr inj,
         address r = Some addr →
         trim (join sep (formatParts addr inj)) ≠ [] →
         includes (formatArgentinianAddress r inj) doubleSep = false
         ∧ startsWith sep (formatArgentinianAddress r inj) = false
         ∧ endsWith sep (formatArgentinianAddress r inj) = false).
Proof.
  split; [reflexivity|]. split; [reflexivity|].
  intros H.
  destruct (H recCommaTown addrCommaTown None eq_refl) as (Hdouble & _ & _).
  - vm_compute. discriminate.
  - vm_compute in Hdouble. discriminate.
Qed.

(** * Further properties of the tokenizer *)

Section TokenizerMore.

Implicit Types (input s t : list N) (c : N) (ts : list (list N))
  (h : ParsedHint).

Lemma isDigit_isNumTail c : isDigit c = true → isNumTail c = true.
Proof.
  unfold isDigit, isNumTail. intros ->. by rewrite !orb_true_r.
Qed.

Lemma forallb_dropWhile_digits s :
  forallb isNumTail (dropWhile isDigit s) = forallb isNumTail s.
Proof.
  induction s as [|c s IH]; simpl; [done|].
  destruct (isDigit c) eqn:E; [|done].
  by rewrite IH, (isDigit_isNumTail c E).
Qed.

Lemma isNumericToken_iff_helper t :
  isNumericToken t = true →
  ∃ c rest, t = c :: rest ∧ isDigit c = true
            ∧ Forall (λ d, isNumTail d = true) rest.
Proof.
  destruct t as [|c rest]; simpl; [done|].
  destruct (isDigit c) eqn:E; simpl; [|done].
  rewrite forallb_dropWhile_digits. intros H.
  exists c, rest. repeat split; [done|].
  apply Forall_forall. intros d Hd%list_elem_of_In.
  by apply (proj1 (forallb_forall _ _) H).
Qed.

(** X1: The test of the regular expression on a token: the token starts with
    a digit and all its other characters are letters, digits, hyphens or
    slashes. *)
Theorem isNumericToken_iff t :
  isNumericToken t = true
  ↔ ∃ c rest, t = c :: rest ∧ isDigit c = true
              ∧ Forall (λ d, isNumTail d = true) rest.
Proof.
  destruct t as [|c rest]; simpl.
  - split; [done | by intros (? & ? & ? & _)].
  - destruct (isDigit c) eqn:E; simpl.
    + rewrite forallb_dropWhile_digits. split.
      * intros H. exists c, rest. repeat split; [done|].
        apply Forall_forall. intros d Hd%list_elem_of_In.
        by apply (proj1 (forallb_forall _ _) H).
      * intros (c' & rest' & [= <- <-] & _ & H).
        apply forallb_forall. intros d Hd%list_elem_of_In.
        by apply (proj1 (Forall_forall _ _) H).
    + split; [done|]. intros (c' & rest' & [= <- <-] & Hc & _). congruence.
Qed.

(** The tokens of the white-space split hold, in order, the characters of
    the string that are not white space. *)
Lemma splitWs_concat s :
  concat (splitWs s) = filter (λ c, isWhite c = false) s.
Proof.
  induction s as [|c s IH]; [done|].
  rewrite splitWs_cons, filter_cons.
  destruct (isWhite c) eqn:Hc.
  - rewrite decide_False by done.
    destruct s as [|c' s]; [done|].
    destruct (isWhite c'); [exact IH | exact IH].
  - rewrite decide_True by done.
    destruct (splitWs_cons_inv s) as (w & ws & E). rewrite E in IH |- *.
    simpl in *. by rewrite IH.
Qed.

Lemma splitWs_elem s t c : t ∈ splitWs s → c ∈ t → c ∈ s.
Proof.
  intros Ht Hc.
  assert (c ∈ concat (splitWs s)) as H.
  { apply list_elem_of_In, in_concat. exists t.
    split; by apply list_elem_of_In. }
  rewrite splitWs_concat in H. by apply list_elem_of_filter in H as [_ ?].
Qed.

Lemma beforeComma_no_comma s : comma ∉ beforeComma s.
Proof.
  induction s as [|c s IH]; cbn [beforeComma]; [by inversion 1|].
  destruct (c =? comma)%N eqn:E; [by inversion 1|].
  apply N.eqb_neq in E. rewrite elem_of_cons. intros [Hc|?]; [congruence|done].
Qed.

Lemma beforeComma_id s : comma ∉ s → beforeComma s = s.
Proof.
  induction s as [|c s IH]; cbn [beforeComma]; [done|].
  rewrite elem_of_cons. intros H.
  destruct (c =? comma)%N eqn:E.
  - apply N.eqb_eq in E. subst c. tauto.
  - f_equal. apply IH. tauto.
Qed.

Lemma beforeComma_app s t : comma ∉ s → beforeComma (s ++ comma :: t) = s.
Proof.
  induction s as [|c s IH]; cbn [beforeComma app].
  - by rewrite N.eqb_refl.
  - rewrite elem_of_cons. intros H.
    destruct (c =? comma)%N eqn:E.
    + apply N.eqb_eq in E. subst c. tauto.
    + f_equal. apply IH. tauto.
Qed.

Lemma trim_elem s c : c ∈ trim s → c ∈ s.
Proof.
  destruct (trim_Substring s) as (pre & post & E). intros H.
  rewrite E, !elem_of_app. tauto.
Qed.

Lemma headText_no_comma input : comma ∉ headText input.
Proof. intros H%trim_elem. by apply beforeComma_no_comma in H. Qed.

(** The tokenizer sees its input through the head only. *)
Lemma extractStreetAndNumber_head input input' :
  headText input = headText input' →
  extractStreetAndNumber input = extractStreetAndNumber input'.
Proof.
  intros E. unfold extractStreetAndNumber.
  by rewrite !headOf_headText, E.
Qed.

Lemma headText_idem input : headText (headText input) = headText input.
Proof.
  unfold headText at 1. rewrite beforeComma_id by apply headText_no_comma.
  apply trim_id, headText_trimmed.
Qed.

(** X2: What follows the first comma of the input plays no role. *)
Theorem tokenizer_ignores_text_after_comma input rest :
  comma ∉ input →
  extractStreetAndNumber (input ++ comma :: rest)
  = extractStreetAndNumber input.
Proof.
  intros H. apply extractStreetAndNumber_head. unfold headText.
  by rewrite beforeComma_app, beforeComma_id.
Qed.

End TokenizerMore.

(** ** Tokens joined by single spaces *)

Section Reparse.

Implicit Types (input s t num : list N) (c : N) (ts : list (list N))
  (h : ParsedHint).

Lemma splitWs_token t : whiteFree t = true → splitWs t = [t].
Proof.
  induction t as [|c t IH]; [done|]. simpl.
  intros [Hc Ht]%andb_true_iff. apply negb_true_iff in Hc.
  rewrite Hc, (IH Ht). done.
Qed.

Lemma splitWs_app_space t s :
  whiteFree t = true → leadingWhite s = false → s ≠ [] →
  splitWs (t ++ space ++ s) = t :: splitWs s.
Proof.
  intros Ht Hs Hne. induction t as [|c t IH].
  - destruct s as [|c' s]; [done|].
    unfold leadingWhite in Hs. simpl in Hs.
    change ([] ++ space ++ c' :: s) with (32%N :: c' :: s).
    rewrite (splitWs_cons 32). change (isWhite 32) with true.
    cbv iota. by rewrite Hs.
  - simpl in Ht. apply andb_true_iff in Ht as [Hc Ht].
    apply negb_true_iff in Hc.
    change ((c :: t) ++ space ++ s) with (c :: (t ++ space ++ s)).
    rewrite splitWs_cons, Hc, (IH Ht). done.
Qed.

Lemma splitWs_join ts :
  Forall (λ t, t ≠ [] ∧ whiteFree t = true) ts → ts ≠ [] →
  splitWs (join space ts) = ts.
Proof.
  induction ts as [|t ts IH]; [done|]. intros Hall _.
  inversion Hall as [|? ? [Hne Hfree] Hrest]; subst.
  destruct ts as [|t' ts]; [by apply splitWs_token|].
  rewrite join_cons_cons.
  destruct (join_tokens (t' :: ts) Hrest) as (Hj & Hl & _ & _); [done|].
  rewrite splitWs_app_space by done. by rewrite IH.
Qed.

(** X3: The white-space split and the join by single spaces: splitting what
    was joined gives the tokens back, and the tokens of any string hold, in
    order, exactly its characters that are not white space. *)
Theorem split_join_round_trip :
  (∀ ts, Forall (λ t, t ≠ [] ∧ whiteFree t = true) ts → ts ≠ [] →
         splitWs (join space ts) = ts)
  ∧ (∀ s, concat (splitWs s) = filter (λ c, isWhite c = false) s
          ∧ Forall (λ t, whiteFree t = true) (splitWs s)).
Proof.
  split.
  - intros ts Hall Hne. by apply splitWs_join.
  - intros s. split; [apply splitWs_concat | apply splitWs_whiteFree].
Qed.

Lemma join_snoc sp ts t :
  ts ≠ [] → join sp (ts ++ [t]) = join sp ts ++ sp ++ t.
Proof.
  induction ts as [|t0 ts IH]; [done|]. intros _.
  destruct ts as [|t1 ts]; [done|].
  change ((t0 :: t1 :: ts) ++ [t]) with (t0 :: t1 :: (ts ++ [t])).
  rewrite !join_cons_cons.
  change (t1 :: ts ++ [t]) with ((t1 :: ts) ++ [t]).
  rewrite IH by done. by rewrite <- !app_assoc.
Qed.

Lemma join_elem sp ts c :
  c ∈ join sp ts → c ∈ sp ∨ ∃ t, t ∈ ts ∧ c ∈ t.
Proof.
  induction ts as [|t ts IH]; [by inversion 1|].
  destruct ts as [|t' ts].
  - simpl. intros H. right. exists t. split; [by left | done].
  - rewrite join_cons_cons, !elem_of_app. intros [H|[H|H]].
    + right. exists t. split; [by left | done].
    + by left.
    + destruct (IH H) as [?|(t0 & Ht0 & ?)]; [by left|].
      right. exists t0. split; [by right | done].
Qed.

Lemma numericIndicesFrom_app n (ts1 ts2 : list (list N)) :
  numericIndicesFrom n (ts1 ++ ts2)
  = numericIndicesFrom n ts1 ++ numericIndicesFrom (n + length ts1) ts2.
Proof.
  revert n. induction ts1 as [|t ts1 IH]; intros n; simpl.
  - by rewrite Nat.add_0_r.
  - rewrite IH. replace (S n + length ts1) with (n + S (length ts1)) by lia.
    by destruct (isNumericToken t).
Qed.

(** Tokens joined by single spaces, the last of them numeric, are read as
    that number after the street made of the others. *)
Lemma extract_of_tokens ts num :
  Forall (λ t, t ≠ [] ∧ whiteFree t = true ∧ comma ∉ t) (ts ++ [num]) →
  ts ≠ [] → isNumericToken num = true →
  extractStreetAndNumber (join space (ts ++ [num]))
  = Some {| street := join space ts; number := Some num |}.
Proof.
  intros Hall Hne Hnum.
  assert (Forall (λ t, t ≠ [] ∧ whiteFree t = true) (ts ++ [num])) as Htok.
  { eapply Forall_impl; [exact Hall|]. simpl. tauto. }
  assert (ts ++ [num] ≠ []) as Hne' by (by destruct ts).
  set (input := join space (ts ++ [num])).
  assert (headText input = input) as Hhead.
  { unfold headText. rewrite beforeComma_id.
    - by apply join_tokens_trim.
    - intros [Hc|(t & Ht & Hc)]%join_elem.
      + apply list_elem_of_singleton in Hc. discriminate.
      + rewrite Forall_forall in Hall. by apply (Hall t Ht). }
  assert (tokensOf input = ts ++ [num]) as Htokens.
  { unfold tokensOf. rewrite Hhead. by apply splitWs_join. }
  assert (numericTokenIndices (ts ++ [num])
          = numericTokenIndices ts ++ [length ts]) as Hidx.
  { unfold numericTokenIndices. rewrite numericIndicesFrom_app. simpl.
    by rewrite Hnum. }
  assert (0 < length ts) as Hlen by (destruct ts; [done | simpl; lia]).
  pose proof (extractStreetAndNumber_cases input) as Hcase.
  remember (extractStreetAndNumber input) as r eqn:Hr.
  destruct Hcase as [k n Hlast Hpos Hwhy Hk Hn | k Hone Hnot | Hzero];
    rewrite ?Htokens, ?Hhead in *.
  - rewrite Hidx, last_snoc in Hlast. injection Hlast as <-.
    rewrite lookup_app_r, Nat.sub_diag in Hk by lia. injection Hk as <-.
    by rewrite take_app_length.
  - rewrite Hidx in Hone.
    destruct (numericTokenIndices ts) as [|? ?]; [|by destruct l].
    injection Hone as <-. exfalso. apply Hnot.
    rewrite length_app. simpl. lia.
  - pose proof (numericTokenIndices_length (ts ++ [num])) as Hl.
    rewrite Hidx, Hzero, length_app in Hl. simpl in Hl. lia.
Qed.

Lemma tokensOf_no_comma input t : t ∈ tokensOf input → comma ∉ t.
Proof.
  intros Ht Hc. apply (headText_no_comma input).
  by apply (splitWs_elem _ t).
Qed.

Lemma extract_hint_text input h n :
  extractStreetAndNumber input = Some h → number h = Some n →
  extractStreetAndNumber (street h ++ space ++ n) = Some h.
Proof.
  intros Hh Hn.
  pose proof (extractStreetAndNumber_cases input) as Hcase.
  rewrite Hh in Hcase.
  inversion Hcase as [k num Hlast Hpos Hwhy Hnum Hnumeric Heq | k Hone Hnot Heq | Hzero Heq];
    subst h; cbn [number street] in *; try discriminate.
  injection Hn as <-.
  assert (2 ≤ length (tokensOf input)) as Hlen.
  { apply lookup_lt_Some in Hnum. lia. }
  pose proof (tokensOf_tokens input Hlen) as Htok.
  assert (take k (tokensOf input) ≠ []) as Hne.
  { destruct (tokensOf input); [simpl in Hlen; lia|]. destruct k; [lia|done]. }
  rewrite <- join_snoc by done.
  apply extract_of_tokens; [|done|done].
  apply Forall_forall. intros t Ht.
  assert (t ∈ tokensOf input) as Hin.
  { apply elem_of_app in Ht as [Ht|Ht].
    - by apply (elem_of_sublist _ _ _ Ht), sublist_take.
    - apply list_elem_of_singleton in Ht. subst t.
      by apply list_elem_of_lookup_2 in Hnum. }
  rewrite Forall_forall in Htok. destruct (Htok t Hin).
  repeat split; try done. by apply (tokensOf_no_comma input).
Qed.

(** X4: The text of the hint the tokenizer returns is read as the same hint
    again. *)
Theorem tokenizer_reparses_its_hint input h :
  extractStreetAndNumber input = Some h →
  extractStreetAndNumber (renderHint h) = Some h.
Proof.
  intros Hh. unfold renderHint.
  destruct (number h) as [n|] eqn:Hn; [by apply (extract_hint_text input)|].
  pose proof (extractStreetAndNumber_cases input) as Hcase.
  rewrite Hh in Hcase.
  assert (street h = headText input) as ->.
  { inversion Hcase; subst h; simpl in *; done. }
  rewrite <- Hh. apply extractStreetAndNumber_head, headText_idem.
Qed.

(** X5: The hint never holds a comma, and its number never holds white
    space. *)
Theorem hint_has_no_comma input h :
  extractStreetAndNumber input = Some h →
  (comma ∉ street h)
  ∧ (∀ n, number h = Some n → (comma ∉ n) ∧ whiteFree n = true).
Proof.
  intros Hh.
  pose proof (extractStreetAndNumber_cases input) as Hcase.
  rewrite Hh in Hcase.
  inversion Hcase as [k num Hlast Hpos Hwhy Hnum Hn Heq | k Hone Hnot Heq | Hzero Heq];
    subst h; simpl.
  - assert (num ∈ tokensOf input) as Hin by (by apply list_elem_of_lookup_2 in Hnum).
    split.
    + intros [Hc|(t & Ht & Hc)]%join_elem.
      * apply list_elem_of_singleton in Hc. discriminate.
      * apply (tokensOf_no_comma input t); [|done].
        by apply (elem_of_sublist _ _ _ Ht), sublist_take.
    + intros n [= <-]. split; [by apply (tokensOf_no_comma input)|].
      pose proof (splitWs_whiteFree (headText input)) as Hw.
      rewrite Forall_forall in Hw. by apply Hw.
  - split; [apply headText_no_comma | done].
  - split; [apply headText_no_comma | done].
Qed.

(** X6: The tokenizer returns a number exactly when the head has two numeric
    tokens or more, or has one that is its last token and not its only one. *)
Theorem tokenizer_number_iff input :
  ∃ h, extractStreetAndNumber input = Some h
       ∧ (is_Some (number h)
          ↔ 2 ≤ numericCount (tokensOf input)
            ∨ (numericCount (tokensOf input) = 1
               ∧ 2 ≤ length (tokensOf input)
               ∧ ∃ t, last (tokensOf input) = Some t
                      ∧ isNumericToken t = true)).
Proof.
  pose proof (extractStreetAndNumber_cases input) as Hcase.
  pose proof (numericTokenIndices_length (tokensOf input)) as Hlen.
  remember (extractStreetAndNumber input) as r eqn:Hr.
  destruct Hcase as [k num Hlast Hpos Hwhy Hnum Hn | k Hone Hnot | Hzero];
    eexists; (split; [reflexivity|]); simpl.
  - split; [intros _ | by eauto].
    destruct Hwhy as [?|[Hc Hk]]; [by left|]. right.
    split; [done|]. split; [lia|]. exists num.
    rewrite last_lookup. replace (pred (length (tokensOf input))) with k by lia.
    done.
  - split; [by intros [? ?]|]. rewrite Hone in Hlen. simpl in Hlen.
    intros [?|(_ & H2 & t & Ht & Hnum)]; [lia|]. exfalso. apply Hnot.
    assert (last (numericTokenIndices (tokensOf input)) = Some k) as Hk
      by (by rewrite Hone).
    destruct (numericTokenIndices_last _ _ Hk) as ((t0 & Ht0 & _) & Hafter).
    apply lookup_lt_Some in Ht0. rewrite last_lookup in Ht.
    destruct (decide (k < pred (length (tokensOf input)))) as [Hlt|?]; [|lia].
    rewrite (Hafter _ _ Hlt Ht) in Hnum. done.
  - split; [by intros [? ?]|].
    intros [?|(? & _)]; lia.
Qed.

End Reparse.

(** * The formatter on hints of the tokenizer *)

Section FormatterWithHint.

Implicit Types (input s p n : list N) (h parsed : ParsedHint)
  (r : NominatimResult) (addr : Address)
  (results validResults : list NominatimResult).

Lemma hint_number_facts input h n :
  extractStreetAndNumber input = Some h → number h = Some n →
  street h ≠ [] ∧ leadingWhite (street h) = false
  ∧ n ≠ [] ∧ whiteFree n = true
  ∧ (comma ∉ street h ++ space ++ n).
Proof.
  intros Hh Hn.
  pose proof (extractStreetAndNumber_cases input) as Hcase.
  rewrite Hh in Hcase.
  inversion Hcase as [k num Hlast Hpos Hwhy Hnum Hnumeric Heq | k Hone Hnot Heq | Hzero Heq];
    subst h; cbn [number street] in *; try discriminate.
  injection Hn as <-.
  assert (2 ≤ length (tokensOf input)) as Hlen.
  { apply lookup_lt_Some in Hnum. lia. }
  pose proof (tokensOf_tokens input Hlen) as Htok.
  destruct (join_tokens (take k (tokensOf input))) as (Hj & Hl & _ & _).
  - by apply Forall_take.
  - destruct (tokensOf input); [simpl in Hlen; lia|]. destruct k; [lia|done].
  - destruct (Forall_lookup_1 _ _ _ _ Htok Hnum) as [Hne Hfree].
    repeat split; try done.
    assert (num ∈ tokensOf input) as Hin
      by (by apply list_elem_of_lookup_2 in Hnum).
    rewrite !elem_of_app. intros [Hc|[Hc|Hc]].
    + apply join_elem in Hc as [Hc|(t & Ht & Hc)].
      * apply list_elem_of_singleton in Hc. discriminate.
      * apply (tokensOf_no_comma input t); [|done].
        by apply (elem_of_sublist _ _ _ Ht), sublist_take.
    + apply list_elem_of_singleton in Hc. discriminate.
    + by apply (tokensOf_no_comma input num).
Qed.

Lemma dropWhile_app_cons f (a b : list N) c :
  f c = false → dropWhile f (a ++ c :: b) = dropWhile f a ++ c :: b.
Proof.
  intros Hc. induction a as [|d a IH]; simpl.
  - by rewrite Hc.
  - destruct (f d); [exact IH | done].
Qed.

Lemma trim_keeps_prefix p s :
  p ≠ [] → leadingWhite p = false → trailingWhite p = false →
  trim (p ++ s) = p ++ trimEnd s.
Proof.
  intros Hne Hl Ht. unfold trim.
  rewrite trimStart_id by (by rewrite leadingWhite_app).
  unfold trimEnd. rewrite reverse_app.
  unfold trailingWhite in Ht. rewrite <- head_reverse in Ht.
  destruct (reverse p) as [|c b] eqn:E.
  - apply (f_equal reverse) in E. rewrite reverse_involutive in E. done.
  - simpl in Ht. rewrite dropWhile_app_cons by done.
    rewrite reverse_app, <- E, reverse_involutive. done.
Qed.

Lemma formatParts_hint_head addr h n :
  number h = Some n → n ≠ [] → street h ≠ [] →
  ∃ rest, formatParts addr (Some h) = (street h ++ space ++ n) :: rest.
Proof.
  intros Hn Hne Hs. unfold formatParts, hintNumber, hintStreet. simpl.
  rewrite Hn. destruct n as [|c n]; [done|].
  destruct (street h) as [|c' s'] eqn:E; [done|]. simpl. eauto.
Qed.

Lemma join_cons_shape sp p (parts : list (list N)) :
  join sp (p :: parts)
  = p ++ match parts with [] => [] | _ :: _ => sp ++ join sp parts end.
Proof. destruct parts; simpl; [by rewrite app_nil_r | done]. Qed.

Lemma format_hint_prefix input h n r addr :
  extractStreetAndNumber input = Some h → number h = Some n →
  address r = Some addr →
  ∃ rest, formatArgentinianAddress r (Some h)
          = (street h ++ space ++ n) ++ rest
          ∧ (rest = [] ∨ ∃ x, rest = comma :: x).
Proof.
  intros Hh Hn Ha.
  destruct (hint_number_facts input h n Hh Hn) as (Hs & Hl & Hne & Hfree & _).
  destruct (formatParts_hint_head addr h n Hn Hne Hs) as [parts Hparts].
  rewrite (format_with_address r addr) by done. rewrite Hparts.
  rewrite join_cons_shape.
  assert (street h ++ space ++ n ≠ []) as Hp by (by destruct (street h)).
  rewrite trim_keeps_prefix; [| done | by rewrite leadingWhite_app |].
  - rewrite (proj2 (truthy_nonempty _)).
    + eexists. split; [reflexivity|].
      destruct parts as [|q parts]; [by left|]. right.
      exact (trimEnd_cons 44 _ eq_refl).
    + intros E. apply app_eq_nil in E as [E _]. done.
  - rewrite app_assoc, trailingWhite_app by done.
    by apply whiteFree_trailing.
Qed.

(** X7: With a hint of the tokenizer that has a number, the result for a
    record with an address object starts with the typed street, a space and
    the typed number. *)
Theorem format_starts_with_typed_address input h n r addr :
  extractStreetAndNumber input = Some h → number h = Some n →
  address r = Some addr →
  startsWith (street h ++ space ++ n) (formatArgentinianAddress r (Some h))
  = true
  ∧ includes (formatArgentinianAddress r (Some h)) n = true.
Proof.
  intros Hh Hn Ha.
  destruct (format_hint_prefix input h n r addr Hh Hn Ha) as (rest & E & _).
  rewrite E. split.
  - apply startsWith_spec. by exists rest.
  - apply includes_spec. exists (street h ++ space), rest.
    by rewrite <- !app_assoc.
Qed.

(** X8: The text of such a suggestion, typed again, is read as the same
    hint. *)
Theorem suggestion_text_reparses input h n r addr :
  extractStreetAndNumber input = Some h → number h = Some n →
  address r = Some addr →
  extractStreetAndNumber (formatArgentinianAddress r (Some h)) = Some h.
Proof.
  intros Hh Hn Ha.
  destruct (format_hint_prefix input h n r addr Hh Hn Ha) as (rest & E & Hrest).
  destruct (hint_number_facts input h n Hh Hn) as (Hs & Hl & Hne & Hfree & Hc).
  transitivity (extractStreetAndNumber (street h ++ space ++ n));
    [|by apply (extract_hint_text input)].
  apply extractStreetAndNumber_head. rewrite E. unfold headText. f_equal.
  rewrite (beforeComma_id (street h ++ space ++ n)) by done.
  destruct Hrest as [->|[x ->]].
  - rewrite app_nil_r. by apply beforeComma_id.
  - by apply beforeComma_app.
Qed.

Lemma filter_all {A} (P : A → Prop) `{∀ x, Decision (P x)} (l : list A) :
  Forall P l → filter P l = l.
Proof.
  induction 1 as [|x l Hx _ IH]; [done|].
  rewrite filter_cons, decide_True by done. by rewrite IH.
Qed.

Lemma validResultsOf_address results :
  Forall (λ r, is_Some (address r)) (validResultsOf results).
Proof.
  apply Forall_forall. intros r [Hr _]%list_elem_of_filter.
  destruct (address r); [eauto | done].
Qed.

Lemma numberFilter_with_hint input h validResults :
  extractStreetAndNumber input = Some h →
  Forall (λ r, is_Some (address r)) validResults →
  numberFilter h validResults (mapFormatted h validResults)
  = mapFormatted h validResults.
Proof.
  intros Hh Hall. unfold numberFilter.
  destruct (number h) as [[|c n]|] eqn:Hn; [done| |done].
  rewrite filter_all.
  - case_bool_decide; done.
  - unfold mapFormatted. apply Forall_fmap, Forall_forall. intros r Hr.
    rewrite Forall_forall in Hall. destruct (Hall r Hr) as [addr Ha].
    simpl. apply Is_true_true.
    destruct (format_hint_prefix input h (c :: n) r addr Hh Hn Ha)
      as (rest & E & _).
    rewrite E. apply includes_spec. exists (street h ++ space), rest.
    by rewrite <- !app_assoc.
Qed.

(** X9: In [searchAddresses], with the hint of the tokenizer, the number
    filter removes no suggestion: every formatted suggestion holds the typed
    number, and the suggestions are the deduplicated formatted results. *)
Theorem number_filter_keeps_all input h results :
  extractStreetAndNumber input = Some h →
  numberFilter h (validResultsOf results)
    (mapFormatted h (validResultsOf results))
  = mapFormatted h (validResultsOf results)
  ∧ suggestionsOf h results = dedupe (mapFormatted h (validResultsOf results)).
Proof.
  intros Hh.
  pose proof (numberFilter_with_hint input h (validResultsOf results) Hh
                (validResultsOf_address results)) as E.
  split; [exact E|]. unfold suggestionsOf. rewrite E.
  case_bool_decide as Hlen; [|done].
  apply length_zero_iff_nil in Hlen. by rewrite Hlen.
Qed.

Lemma numberFilter_sublist parsed validResults :
  numberFilter parsed validResults (mapFormatted parsed validResults)
  `sublist_of` mapFormatted parsed validResults.
Proof.
  unfold numberFilter. destruct (number parsed) as [[|c n]|]; try done.
  case_bool_decide; [done | apply sublist_filter].
Qed.

Lemma numberFilter_nil parsed validResults :
  numberFilter parsed validResults (mapFormatted parsed validResults) = []
  ↔ validResults = [].
Proof.
  rewrite <- (mapFormatted_nil parsed validResults).
  unfold numberFilter. destruct (number parsed) as [[|c n]|]; try done.
  case_bool_decide as Hlen; [done|].
  split; [|by intros ->]. intros E. rewrite E in Hlen. done.
Qed.

Lemma dedupe_sublist (mapped : list NominatimResult) :
  dedupe mapped `sublist_of` mapped.
Proof.
  rewrite dedupe_firstOccurrences. unfold firstOccurrences.
  by destruct (firstOccurrencesFrom_spec [] mapped) as (_ & _ & H & _).
Qed.

Lemma suggestionsOf_sublist parsed results :
  suggestionsOf parsed results
  `sublist_of` mapFormatted parsed (validResultsOf results).
Proof.
  unfold suggestionsOf. case_bool_decide; [apply sublist_nil_l|].
  etrans; [apply dedupe_sublist | apply numberFilter_sublist].
Qed.

(** X10: Every suggestion is a result of the response that has a road, with
    its text replaced by the formatted address and nothing else changed;
    there are never more suggestions than results. *)
Theorem suggestions_come_from_results parsed results :
  (∀ sg : NominatimResult, sg ∈ suggestionsOf parsed results →
        ∃ r, r ∈ results
             ∧ truthyOpt (a ← address r; road a) = true
             ∧ sg = withDisplayName r
                      (formatArgentinianAddress r (Some parsed)))
  ∧ length (suggestionsOf parsed results) ≤ length results.
Proof.
  pose proof (suggestionsOf_sublist parsed results) as Hsub. split.
  - intros sg Hs. apply (elem_of_sublist _ _ _ Hs) in Hsub.
    unfold mapFormatted in Hsub.
    apply list_elem_of_fmap in Hsub as (r & -> & Hr).
    apply list_elem_of_filter in Hr as [Hroad Hr].
    exists r. split; [done|]. split; [by apply Is_true_true | done].
  - apply sublist_length in Hsub. unfold mapFormatted in Hsub.
    rewrite length_fmap in Hsub.
    pose proof (length_filter (λ r, truthyOpt (a ← address r; road a)) results).
    unfold validResultsOf in Hsub. lia.
Qed.

(** X11: The suggestions have pairwise distinct texts, and there is none
    exactly when no result of the response has a road. *)
Theorem suggestions_distinct parsed results :
  NoDup (display_name <$> suggestionsOf parsed results)
  ∧ (suggestionsOf parsed results = []
     ↔ Forall (λ r, truthyOpt (a ← address r; road a) = false) results).
Proof.
  split.
  - unfold suggestionsOf. case_bool_decide; [constructor|].
    rewrite dedupe_firstOccurrences. unfold firstOccurrences.
    by destruct (firstOccurrencesFrom_spec []
      (numberFilter parsed (validResultsOf results)
         (mapFormatted parsed (validResultsOf results)))) as (H' & _).
  - assert (suggestionsOf parsed results = [] ↔ validResultsOf results = [])
      as ->.
    { unfold suggestionsOf. case_bool_decide as Hlen.
      - apply length_zero_iff_nil in Hlen. by rewrite Hlen.
      - rewrite dedupe_nil. apply numberFilter_nil. }
    unfold validResultsOf. split.
    + intros E. apply Forall_forall. intros r Hr.
      destruct (truthyOpt (a ← address r; road a)) eqn:Ht; [|done].
      exfalso. eapply (filter_nil_not_elem_of _ _ r E); [|done].
      by apply Is_true_true.
    + intros Hall. induction Hall as [|r l Hr _ IH]; [done|].
      rewrite filter_cons, decide_False; [done|].
      rewrite Hr. simpl. tauto.
Qed.

End FormatterWithHint.

(** * The component *)

Section KeyDown.

Implicit Types (st : State) (key : list N).

Local Open Scope Z_scope.

Lemma key_names_differ :
  lit "ArrowUp" ≠ lit "ArrowDown" ∧ lit "Enter" ≠ lit "ArrowDown"
  ∧ lit "Enter" ≠ lit "ArrowUp" ∧ lit "Escape" ≠ lit "ArrowDown"
  ∧ lit "Escape" ≠ lit "ArrowUp" ∧ lit "Escape" ≠ lit "Enter".
Proof. vm_compute. repeat split; discriminate. Qed.

Lemma shown_guard st :
  showSuggestions st = true → suggestions st ≠ [] →
  negb (showSuggestions st) || bool_decide (length (suggestions st) = 0%nat)
  = false.
Proof.
  intros -> Hne. simpl. apply bool_decide_eq_false.
  by destruct (suggestions st).
Qed.

Lemma hidden_guard st :
  showSuggestions st = false ∨ suggestions st = [] →
  negb (showSuggestions st) || bool_decide (length (suggestions st) = 0%nat)
  = true.
Proof.
  intros [->| ->]; [done|]. simpl. apply orb_true_r.
Qed.

Lemma handleKeyDown_hidden key st :
  showSuggestions st = false ∨ suggestions st = [] →
  handleKeyDown key st
  = Some (st, if bool_decide (key = lit "Enter")
              then [OnAddressSelect (inputValue st) None] else []).
Proof. intros H. unfold handleKeyDown. by rewrite hidden_guard. Qed.

Lemma handleKeyDown_down st :
  showSuggestions st = true → suggestions st ≠ [] →
  handleKeyDown (lit "ArrowDown") st
  = Some (setSelectedIndex
            (if bool_decide
                  (selectedIndex st < Z.of_nat (length (suggestions st)) - 1)
             then selectedIndex st + 1 else selectedIndex st) st,
          [PreventDefault]).
Proof.
  intros Hs Hne. unfold handleKeyDown. rewrite shown_guard by done.
  by rewrite bool_decide_eq_true_2.
Qed.

Lemma handleKeyDown_up st :
  showSuggestions st = true → suggestions st ≠ [] →
  handleKeyDown (lit "ArrowUp") st
  = Some (setSelectedIndex
            (if bool_decide (0 < selectedIndex st)
             then selectedIndex st - 1 else -1) st,
          [PreventDefault]).
Proof.
  intros Hs Hne. unfold handleKeyDown. rewrite shown_guard by done.
  destruct key_names_differ as (H1 & _).
  rewrite (bool_decide_eq_false_2 (lit "ArrowUp" = lit "ArrowDown")) by done.
  by rewrite bool_decide_eq_true_2.
Qed.

Lemma handleKeyDown_enter st :
  showSuggestions st = true → suggestions st ≠ [] →
  handleKeyDown (lit "Enter") st
  = if bool_decide (0 ≤ selectedIndex st)
       && bool_decide (selectedIndex st < Z.of_nat (length (suggestions st)))
    then
      suggestion ← suggestions st !! Z.to_nat (selectedIndex st);
      Some ((handleSuggestionClick suggestion st).1,
            PreventDefault :: (handleSuggestionClick suggestion st).2)
    else Some (st, [PreventDefault; OnAddressSelect (inputValue st) None]).
Proof.
  intros Hs Hne. unfold handleKeyDown. rewrite shown_guard by done.
  destruct key_names_differ as (_ & H1 & H2 & _).
  rewrite (bool_decide_eq_false_2 (lit "Enter" = lit "ArrowDown")) by done.
  rewrite (bool_decide_eq_false_2 (lit "Enter" = lit "ArrowUp")) by done.
  by rewrite (bool_decide_eq_true_2 (lit "Enter" = lit "Enter")).
Qed.

Lemma handleKeyDown_escape st :
  showSuggestions st = true → suggestions st ≠ [] →
  handleKeyDown (lit "Escape") st
  = Some (setSelectedIndex (-1)
            (setShowSuggestions false (setSuggestions [] st)), []).
Proof.
  intros Hs Hne. unfold handleKeyDown. rewrite shown_guard by done.
  destruct key_names_differ as (_ & _ & _ & H1 & H2 & H3).
  rewrite (bool_decide_eq_false_2 (lit "Escape" = lit "ArrowDown")) by done.
  rewrite (bool_decide_eq_false_2 (lit "Escape" = lit "ArrowUp")) by done.
  rewrite (bool_decide_eq_false_2 (lit "Escape" = lit "Enter")) by done.
  by rewrite bool_decide_eq_true_2.
Qed.

Lemma handleKeyDown_other key st :
  key ≠ lit "ArrowDown" → key ≠ lit "ArrowUp" → key ≠ lit "Enter" →
  key ≠ lit "Escape" →
  handleKeyDown key st = Some (st, []).
Proof.
  intros H1 H2 H3 H4. unfold handleKeyDown.
  rewrite (bool_decide_eq_false_2 (key = lit "ArrowDown")) by done.
  rewrite (bool_decide_eq_false_2 (key = lit "ArrowUp")) by done.
  rewrite (bool_decide_eq_false_2 (key = lit "Enter")) by done.
  rewrite (bool_decide_eq_false_2 (key = lit "Escape")) by done.
  by destruct (negb (showSuggestions st) || _).
Qed.

Lemma lookup_in_range (l : list NominatimResult) (i : Z) :
  0 ≤ i → i < Z.of_nat (length l) → ∃ x, l !! Z.to_nat i = Some x.
Proof. intros H0 H1. apply lookup_lt_is_Some. lia. Qed.

(** The cases of a key press. *)
Lemma handleKeyDown_cases key st :
  (showSuggestions st = false ∨ suggestions st = [])
  ∨ (showSuggestions st = true ∧ suggestions st ≠ []
     ∧ (key = lit "ArrowDown" ∨ key = lit "ArrowUp" ∨ key = lit "Enter"
        ∨ key = lit "Escape"
        ∨ (key ≠ lit "ArrowDown" ∧ key ≠ lit "ArrowUp" ∧ key ≠ lit "Enter"
           ∧ key ≠ lit "Escape"))).
Proof.
  destruct (showSuggestions st); [|by left; left].
  destruct (suggestions st) as [|s l] eqn:E; [by left; right|]. right.
  split; [done|]. split; [done|].
  destruct (decide (key = lit "ArrowDown")); [tauto|].
  destruct (decide (key = lit "ArrowUp")); [tauto|].
  destruct (decide (key = lit "Enter")); [tauto|].
  destruct (decide (key = lit "Escape")); tauto.
Qed.

(** X12: [handleKeyDown] never reads a suggestion outside the list, whatever
    the selected index is: it always returns. It changes nothing while the
    list is hidden or empty, and nothing on a key other than the four it
    knows. *)
Theorem keydown_never_fails key st :
  ∃ st' effects,
    handleKeyDown key st = Some (st', effects)
    ∧ (showSuggestions st = false ∨ suggestions st = [] → st' = st)
    ∧ (key ≠ lit "ArrowDown" → key ≠ lit "ArrowUp" → key ≠ lit "Enter" →
       key ≠ lit "Escape" → st' = st ∧ effects = []).
Proof.
  destruct (handleKeyDown_cases key st)
    as [Hh|(Hs & Hne & [->|[->|[->|[->|(H1 & H2 & H3 & H4)]]]])].
  - rewrite handleKeyDown_hidden by done. eexists _, _.
    split; [reflexivity|]. split; [done|]. intros _ _ H3 _.
    by rewrite bool_decide_eq_false_2.
  - rewrite handleKeyDown_down by done. eexists _, _.
    split; [reflexivity|]. split; [|done]. intros [?|?]; congruence.
  - rewrite handleKeyDown_up by done. eexists _, _.
    split; [reflexivity|]. split; [|done]. intros [?|?]; congruence.
  - rewrite handleKeyDown_enter by done.
    destruct (bool_decide (0 ≤ selectedIndex st)
              && bool_decide (selectedIndex st
                              < Z.of_nat (length (suggestions st)))) eqn:Hb.
    + apply andb_true_iff in Hb as [H0 H1].
      apply bool_decide_eq_true in H0, H1.
      destruct (lookup_in_range _ _ H0 H1) as [s Hs']. rewrite Hs'. simpl.
      eexists _, _. split; [reflexivity|]. split; [|done].
      intros [?|?]; congruence.
    + eexists _, _. split; [reflexivity|]. split; done.
  - rewrite handleKeyDown_escape by done. eexists _, _.
    split; [reflexivity|]. split; [|done]. intros [?|?]; congruence.
  - rewrite handleKeyDown_other by done. eexists _, _.
    split; [reflexivity|]. done.
Qed.

(** X13: The arrow keys move the selection by one and keep it within the
    list: down stops at the last suggestion, up stops at no selection. *)
Theorem arrows_keep_selection_in_range st :
  showSuggestions st = true → suggestions st ≠ [] →
  -1 ≤ selectedIndex st < Z.of_nat (length (suggestions st)) →
  handleKeyDown (lit "ArrowDown") st
  = Some (setSelectedIndex
            (Z.min (selectedIndex st + 1)
                   (Z.of_nat (length (suggestions st)) - 1)) st,
          [PreventDefault])
  ∧ handleKeyDown (lit "ArrowUp") st
    = Some (setSelectedIndex (Z.max (selectedIndex st - 1) (-1)) st,
            [PreventDefault]).
Proof.
  intros Hs Hne Hr. rewrite handleKeyDown_down, handleKeyDown_up by done.
  split; repeat f_equal; case_bool_decide; lia.
Qed.

(** X14: Enter reports exactly one address. With the list shown and the
    selected index inside it, it reports the text of the selected suggestion
    together with the suggestion, after which the input holds that text, the
    list is empty and hidden and nothing is selected; in every other case,
    and only then, it reports the typed text without details and leaves the
    state as it is. *)
Theorem enter_reports_one_address st :
  ∃ st' address details,
    (handleKeyDown (lit "Enter") st
     = Some (st', [OnAddressSelect address details])
     ∨ handleKeyDown (lit "Enter") st
       = Some (st', [PreventDefault; OnAddressSelect address details]))
    ∧ match details with
      | Some s =>
          showSuggestions st = true
          ∧ 0 ≤ selectedIndex st < Z.of_nat (length (suggestions st))
          ∧ suggestions st !! Z.to_nat (selectedIndex st) = Some s
          ∧ address = display_name s
          ∧ st' = setSelectedIndex (-1)
                    (setShowSuggestions false
                       (setSuggestions []
                          (setInputValue (display_name s) st)))
      | None =>
          address = inputValue st ∧ st' = st
          ∧ ¬ (showSuggestions st = true
               ∧ 0 ≤ selectedIndex st < Z.of_nat (length (suggestions st)))
      end.
Proof.
  destruct (handleKeyDown_cases (lit "Enter") st) as [Hh|(Hs & Hne & _)].
  - rewrite handleKeyDown_hidden by done.
    rewrite bool_decide_eq_true_2 by done.
    exists st, (inputValue st), None. split; [by left|].
    split; [done|]. split; [done|]. intros [Hs Hr].
    destruct Hh as [Hh|Hh]; [congruence|]. rewrite Hh in Hr. simpl in Hr. lia.
  - rewrite handleKeyDown_enter by done.
    destruct (bool_decide (0 ≤ selectedIndex st)
              && bool_decide (selectedIndex st
                              < Z.of_nat (length (suggestions st)))) eqn:Hb.
    + apply andb_true_iff in Hb as [H0 H1].
      apply bool_decide_eq_true in H0, H1.
      destruct (lookup_in_range _ _ H0 H1) as [s Hs']. rewrite Hs'. simpl.
      eexists _, (display_name s), (Some s). split; [by right|]. done.
    + exists st, (inputValue st), None. split; [by right|].
      split; [done|]. split; [done|]. intros [_ [H0 H1]].
      apply andb_false_iff in Hb as [Hb|Hb];
        apply bool_decide_eq_false in Hb; lia.
Qed.

End KeyDown.

Section Search.

Implicit Types (st : State) (query : list N) (parsed : ParsedHint)
  (outcome : FetchOutcome) (results : list NominatimResult).

Lemma extract_is_Some query : ∃ h, extractStreetAndNumber query = Some h.
Proof.
  pose proof (extractStreetAndNumber_cases query) as Hcase.
  destruct (extractStreetAndNumber query) as [h|]; [eauto|].
  inversion Hcase.
Qed.

(** The suggestions a finished request leaves. *)
Lemma searchDone_state parsed outcome st :
  (searchDone parsed outcome st).1
  = {| inputValue := inputValue st;
       suggestions :=
         match outcome with
         | ResponseOk results => suggestionsOf parsed results
         | _ => []
         end;
       isLoading := false;
       showSuggestions :=
         match outcome with
         | ResponseOk results =>
             bool_decide (0 < length (suggestionsOf parsed results))
         | _ => false
         end;
       selectedIndex := selectedIndex st |}.
Proof.
  destruct outcome as [results| |]; try done.
  unfold searchDone, suggestionsOf. by case_bool_decide.
Qed.

(** X15: One call of [searchAddresses] always ends, leaves the typed text
    and the selection as they are, and shows the list exactly when it has a
    suggestion. A query of fewer than three code units only clears the
    suggestions; a longer one ends with the loading flag down and with the
    suggestions of the response, or none when the request failed. *)
Theorem search_outcome query outcome st :
  ∃ st' effects,
    searchAddresses query outcome st = Some (st', effects)
    ∧ inputValue st' = inputValue st
    ∧ selectedIndex st' = selectedIndex st
    ∧ (showSuggestions st' = true ↔ suggestions st' ≠ [])
    ∧ (length query < 3 →
       suggestions st' = [] ∧ isLoading st' = isLoading st ∧ effects = [])
    ∧ (3 ≤ length query →
       isLoading st' = false
       ∧ ∃ parsed,
           extractStreetAndNumber query = Some parsed
           ∧ suggestions st'
             = match outcome with
               | ResponseOk results => suggestionsOf parsed results
               | _ => []
               end).
Proof.
  unfold searchAddresses, searchStart. case_bool_decide as Hlen.
  - eexists _, _. split; [reflexivity|]. simpl.
    repeat split; try done; lia.
  - destruct (extract_is_Some query) as [parsed Hp]. rewrite Hp. simpl.
    destruct (searchDone parsed outcome (setIsLoading true st))
      as [st' effects] eqn:E.
    pose proof (searchDone_state parsed outcome (setIsLoading true st)) as Hst.
    rewrite E in Hst. simpl in Hst. subst st'.
    eexists _, _. split; [reflexivity|]. simpl.
    split; [done|]. split; [done|]. split.
    + destruct outcome as [results| |]; [|done|done].
      rewrite bool_decide_eq_true.
      destruct (suggestionsOf parsed results); simpl; split; (done || lia).
    + split; [lia|]. intros _. split; [done|]. by exists parsed.
Qed.

End Search.

(** ** What holds in every state *)

Section Reachable.

Implicit Types (w : World) (st : State).

Local Open Scope Z_scope.

Lemma suggestionsOf_NoDup parsed results :
  NoDup (display_name <$> suggestionsOf parsed results).
Proof.
  unfold suggestionsOf. case_bool_decide; [constructor|].
  rewrite dedupe_firstOccurrences. unfold firstOccurrences.
  by destruct (firstOccurrencesFrom_spec []
    (numberFilter parsed (validResultsOf results)
       (mapFormatted parsed (validResultsOf results)))) as (H' & _).
Qed.

Lemma suggestionsOf_roads parsed results :
  Forall (λ s, truthyOpt (a ← address s; road a) = true)
         (suggestionsOf parsed results).
Proof.
  apply Forall_forall. intros s Hs.
  pose proof (suggestionsOf_sublist parsed results) as Hin.
  apply (elem_of_sublist _ _ _ Hs) in Hin.
  unfold mapFormatted in Hin.
  apply list_elem_of_fmap in Hin as (r & -> & Hr).
  apply list_elem_of_filter in Hr as [Hroad _].
  simpl. by apply Is_true_true.
Qed.

Lemma handleKeyDown_state key st st' effects :
  handleKeyDown key st = Some (st', effects) →
  st' = st
  ∨ (∃ x, (selectedIndex st ≤ x ∨ -1 ≤ x) ∧ st' = setSelectedIndex x st)
  ∨ (suggestions st' = [] ∧ showSuggestions st' = false
     ∧ selectedIndex st' = -1).
Proof.
  destruct (handleKeyDown_cases key st)
    as [Hh|(Hs & Hne & [->|[->|[->|[->|(H1 & H2 & H3 & H4)]]]])].
  - rewrite handleKeyDown_hidden by done. intros [= <- _]. by left.
  - rewrite handleKeyDown_down by done. intros [= <- _]. right. left.
    eexists. split; [|reflexivity]. left. case_bool_decide; lia.
  - rewrite handleKeyDown_up by done. intros [= <- _]. right. left.
    eexists. split; [|reflexivity]. right. case_bool_decide; lia.
  - rewrite handleKeyDown_enter by done.
    destruct (bool_decide _ && bool_decide _).
    + destruct (suggestions st !! Z.to_nat (selectedIndex st)); [|done].
      simpl. intros [= <- _]. right. right. done.
    + intros [= <- _]. by left.
  - rewrite handleKeyDown_escape by done. intros [= <- _].
    right. right. done.
  - rewrite handleKeyDown_other by done. intros [= <- _]. by left.
Qed.

Lemma clearDebounce_lookup w id query :
  clearDebounce w !! id = Some query → timers w !! id = Some query.
Proof.
  unfold clearDebounce. destruct (debounceRef w) as [[|i]|]; try done.
  intros H. apply lookup_delete_Some in H. tauto.
Qed.

Lemma clearDebounce_empty w : Invariant w → clearDebounce w = ∅.
Proof.
  intros Hinv. apply map_eq. intros id. rewrite lookup_empty.
  destruct (clearDebounce w !! id) as [query|] eqn:E; [|done].
  pose proof (clearDebounce_lookup _ _ _ E) as Ht.
  destruct (inv_timer w Hinv id query Ht) as [Href Hpos].
  unfold clearDebounce in E. rewrite Href in E.
  destruct id as [|i]; [lia|]. by rewrite lookup_delete_eq in E.
Qed.

Lemma initial_invariant value : Invariant (initialWorld value).
Proof.
  split; simpl; try done; try constructor.
Qed.

Lemma step_invariant w w' : Invariant w → step w w' → Invariant w'.
Proof.
  intros Hinv Hstep.
  destruct Hinv as [Hidx Hshown Hdist Hroads Htimer].
  destruct Hstep as [newValue id w Hpos Hfresh | id query w Hq
                    | query parsed outcome w Hp | key st' effects w Hk
                    | suggestion w | w | value w | w].
  - split; simpl; try done.
    intros id' query'. rewrite lookup_insert.
    case_decide as Hid; [intros _; subst; split; [done | lia]|].
    intros Hl. exfalso.
    pose proof (clearDebounce_lookup _ _ _ Hl) as Ht.
    assert (clearDebounce w = ∅) as E by (by apply clearDebounce_empty).
    by rewrite E, lookup_empty in Hl.
  - split; simpl.
    + unfold searchStart. by case_bool_decide.
    + unfold searchStart. case_bool_decide; simpl; done.
    + unfold searchStart. case_bool_decide; simpl; [constructor | done].
    + unfold searchStart. case_bool_decide; simpl; [constructor | done].
    + intros id' query' Hl. apply lookup_delete_Some in Hl as [_ Hl]. eauto.
  - rewrite searchDone_state. split; simpl; try done.
    + destruct outcome as [results| |]; [|done|done].
      rewrite bool_decide_eq_true.
      destruct (suggestionsOf parsed results); simpl; [lia | done].
    + destruct outcome; [apply suggestionsOf_NoDup | constructor | constructor].
    + destruct outcome; [apply suggestionsOf_roads | constructor | constructor].
  - destruct (handleKeyDown_state _ _ _ _ Hk)
      as [->|[(x & Hx & ->)|(H1 & H2 & H3)]].
    + by split.
    + split; simpl; try done. lia.
    + split; simpl; rewrite ?H1, ?H2, ?H3; try done; constructor.
  - split; simpl; try done; constructor.
  - split; simpl; try done.
  - split; simpl; try done.
  - split; simpl; try done.
    intros id query Hl. apply (Htimer id query). by apply clearDebounce_lookup.
Qed.

Lemma rtc_invariant value w :
  rtc step (initialWorld value) w → Invariant w.
Proof.
  intros H.
  apply (rtc_ind_r (R := step) (λ w, Invariant w) (initialWorld value));
    [apply initial_invariant | | exact H].
  intros y z _ Hstep Hy. by apply (step_invariant y).
Qed.

(** X16: In every state the component reaches, whatever the order of key
    presses, clicks, input changes, timers and responses: the selected index
    is at least -1, the list is shown only if it has a suggestion, the
    suggestions have pairwise distinct texts and each has a road. *)
Theorem component_invariant value w :
  rtc step (initialWorld value) w →
  -1 ≤ selectedIndex (comp w)
  ∧ (showSuggestions (comp w) = true → suggestions (comp w) ≠ [])
  ∧ NoDup (display_name <$> suggestions (comp w))
  ∧ Forall (λ s, truthyOpt (a ← address s; road a) = true)
           (suggestions (comp w)).
Proof.
  intros H. destruct (rtc_invariant value w H). done.
Qed.

(** X17: The debounce: in every state the component reaches at most one
    timer is pending, and it is the one [debounceRef] holds; an input change
    leaves exactly the timer it sets, with the new text as its query, and
    the cleanup on unmount leaves none. *)
Theorem debounce_single_timer value w :
  rtc step (initialWorld value) w →
  (∀ id1 id2 q1 q2,
     timers w !! id1 = Some q1 → timers w !! id2 = Some q2 →
     id1 = id2 ∧ debounceRef w = Some id1)
  ∧ (∀ newValue id,
       timers (handleInputChange newValue id w) = {[id := newValue]})
  ∧ clearDebounce w = ∅.
Proof.
  intros H. pose proof (rtc_invariant value w H) as Hinv.
  pose proof (clearDebounce_empty w Hinv) as Hclear.
  split; [|split; [|done]].
  - intros id1 id2 q1 q2 H1 H2.
    destruct (inv_timer w Hinv id1 q1 H1) as [E1 _].
    destruct (inv_timer w Hinv id2 q2 H2) as [E2 _].
    split; [congruence | done].
  - intros newValue id. simpl. by rewrite Hclear, insert_empty.
Qed.

End Reachable.

(** * The caller *)

Section App.

Implicit Types (saved address : list N) (effects : list Effect)
  (out : list AppEffect) (st : State).

Lemma savedFiles_app out out' :
  savedFiles (out ++ out') = savedFiles out ++ savedFiles out'.
Proof.
  induction out as [|[|a] out IH]; simpl; [done | done | by rewrite IH].
Qed.

Lemma deliver_select address details effects saved :
  deliver (OnAddressSelect address details :: effects) saved
  = ((deliver effects (handleAddressSelect address details saved).1).1,
     (handleAddressSelect address details saved).2
     ++ (deliver effects (handleAddressSelect address details saved).1).2).
Proof.
  simpl. destruct (handleAddressSelect address details saved) as [s1 o1].
  simpl. by destruct (deliver effects s1).
Qed.

Lemma handleAddressSelect_cases address details saved :
  (handleAddressSelect address details saved = (saved, [ConsoleLog])
   ∧ details = None)
  ∨ (handleAddressSelect address details saved = (saved, [])
     ∧ address = saved ∧ is_Some details)
  ∨ (handleAddressSelect address details saved
     = (address, [ConsoleLog; SaveFile address])
     ∧ address ≠ saved ∧ is_Some details).
Proof.
  unfold handleAddressSelect. destruct details as [s|]; [|by left].
  right. case_bool_decide; [left | right]; eauto.
Qed.

(** X18: Over any sequence of calls of [onAddressSelect], [App] writes a
    file only for a call that carries details, never twice in a row for the
    same address, and ends with the last address written as the saved one. *)
Theorem app_saves_selected_once effects saved :
  (∀ a, a ∈ savedFiles (deliver effects saved).2 →
        ∃ s, OnAddressSelect a (Some s) ∈ effects)
  ∧ (∀ i a b,
       (saved :: savedFiles (deliver effects saved).2) !! i = Some a →
       (saved :: savedFiles (deliver effects saved).2) !! S i = Some b →
       a ≠ b)
  ∧ (deliver effects saved).1
    = default saved (last (savedFiles (deliver effects saved).2)).
Proof.
  revert saved. induction effects as [|e effects IH]; intros saved.
  { simpl. split; [by inversion 1|]. split; [|done].
    intros [|i] a b; simpl; done. }
  destruct e as [address details| |].
  2,3: change (deliver (_ :: effects) saved) with (deliver effects saved);
    destruct (IH saved) as (H1 & H2 & H3); split; [|done];
    intros a Ha; destruct (H1 a Ha) as [s Hs]; exists s; by right.
  rewrite deliver_select.
  destruct (handleAddressSelect_cases address details saved)
    as [[E ->]|[(E & -> & [s ->])|(E & Hne & [s ->])]];
    rewrite E; simpl.
  - destruct (IH saved) as (H1 & H2 & H3). split; [|done].
    intros a Ha. destruct (H1 a Ha) as [s Hs]. exists s. by right.
  - destruct (IH saved) as (H1 & H2 & H3). split; [|done].
    intros a Ha. destruct (H1 a Ha) as [s' Hs]. exists s'. by right.
  - destruct (IH address) as (H1 & H2 & H3). split; [|split].
    + intros a [->|Ha]%elem_of_cons; [exists s; by left|].
      destruct (H1 a Ha) as [s' Hs]. exists s'. by right.
    + intros [|i] a b; simpl.
      * intros [= <-] [= <-]. done.
      * apply H2.
    + rewrite H3.
      destruct (savedFiles (deliver effects address).2) as [|f fs]; [done|].
      rewrite last_cons_cons.
      destruct (last (f :: fs)) eqn:El; [done|]. by apply last_None in El.
Qed.

(** X19: What reaches a file from the component: leaving the input never
    writes one; a key press writes one only when it is Enter with the list
    shown and the selected index inside it, and then exactly when the text
    of the selected suggestion differs from the saved address; a click on a
    suggestion writes one exactly when its text differs from the saved
    address. The address written is the text of that suggestion. *)
Theorem only_selected_suggestions_are_saved saved :
  (∀ value st, savedFiles (deliver (handleBlur value st).2 saved).2 = [])
  ∧ (∀ key st st' effects a,
       handleKeyDown key st = Some (st', effects) →
       a ∈ savedFiles (deliver effects saved).2 →
       key = lit "Enter" ∧ showSuggestions st = true
       ∧ (0 ≤ selectedIndex st < Z.of_nat (length (suggestions st)))%Z
       ∧ ∃ s, suggestions st !! Z.to_nat (selectedIndex st) = Some s
              ∧ a = display_name s ∧ a ≠ saved)
  ∧ (∀ st s,
       showSuggestions st = true →
       (0 ≤ selectedIndex st)%Z →
       suggestions st !! Z.to_nat (selectedIndex st) = Some s →
       ∃ st' effects,
         handleKeyDown (lit "Enter") st = Some (st', effects)
         ∧ savedFiles (deliver effects saved).2
           = if bool_decide (display_name s = saved) then []
             else [display_name s])
  ∧ (∀ s st,
       savedFiles (deliver (handleSuggestionClick s st).2 saved).2
       = if bool_decide (display_name s = saved) then []
         else [display_name s]).
Proof.
  split; [|split; [|split]].
  - intros value st. unfold handleBlur. simpl. by case_bool_decide.
  - intros key st st' effects a.
    destruct (handleKeyDown_cases key st)
      as [Hh|(Hs & Hne & [->|[->|[->|[->|(H1 & H2 & H3 & H4)]]]])].
    + rewrite handleKeyDown_hidden by done. intros [= <- <-].
      case_bool_decide; simpl; by inversion 1.
    + rewrite handleKeyDown_down by done. intros [= <- <-]. by inversion 1.
    + rewrite handleKeyDown_up by done. intros [= <- <-]. by inversion 1.
    + rewrite handleKeyDown_enter by done.
      destruct (bool_decide (0 ≤ selectedIndex st)%Z
                && bool_decide (selectedIndex st
                                < Z.of_nat (length (suggestions st)))%Z)
        eqn:Hb.
      * apply andb_true_iff in Hb as [H0 H1].
        apply bool_decide_eq_true in H0, H1.
        destruct (suggestions st !! Z.to_nat (selectedIndex st)) as [s|] eqn:E;
          [|done].
        simpl. intros [= <- <-]. simpl. case_bool_decide as Hd; simpl.
        { by inversion 1. }
        intros ->%list_elem_of_singleton.
        split; [done|]. split; [done|]. split; [done|]. by exists s.
      * intros [= <- <-]. simpl. by inversion 1.
    + rewrite handleKeyDown_escape by done. intros [= <- <-]. by inversion 1.
    + rewrite handleKeyDown_other by done. intros [= <- <-]. by inversion 1.
  - intros st s Hs H0 Hlook.
    assert (suggestions st ≠ []) as Hne.
    { intros E. by rewrite E in Hlook. }
    rewrite handleKeyDown_enter by done.
    apply lookup_lt_Some in Hlook as Hlt.
    rewrite !bool_decide_eq_true_2 by lia. simpl. rewrite Hlook. simpl.
    eexists _, _. split; [reflexivity|]. simpl. by case_bool_decide.
  - intros s st. simpl. by case_bool_decide.
Qed.

End App.

(** * The earlier copy *)

Section LegacyTokenizer.

Implicit Types (input s n pre post : list N) (c : N) (h : ParsedHint).

Lemma isNumTail_not_white c : isNumTail c = true → isWhite c = false.
Proof.
  intros H. apply not_true_iff_false. intros Hw.
  unfold isNumTail, isWhite in *.
  rewrite ?orb_true_iff, ?andb_true_iff, ?N.leb_le, ?N.eqb_eq in *. lia.
Qed.

Lemma isNumericToken_whiteFree n : isNumericToken n = true → whiteFree n = true.
Proof.
  intros (c & rest & -> & Hc & Hrest)%isNumericToken_iff_helper.
  simpl. rewrite (isNumTail_not_white c) by (by apply isDigit_isNumTail).
  simpl. apply forallb_forall. intros d Hd%list_elem_of_In.
  rewrite Forall_forall in Hrest.
  by rewrite (isNumTail_not_white d) by (by apply Hrest).
Qed.

Lemma whiteFree_trim n : whiteFree n = true → trim n = n.
Proof.
  intros H. apply trim_id. unfold isTrimmed.
  by rewrite whiteFree_leading, whiteFree_trailing.
Qed.

Lemma matchStreetNumber_cons prev c s :
  Legacy.matchStreetNumber prev (c :: s)
  = if Legacy.wordBoundary prev (c :: s) && isNumericToken (c :: s)
    then Some ([], c :: s)
    else if Legacy.isLineTerminator c then None
         else '(ga, gb) ← Legacy.matchStreetNumber (Some c) s;
              Some (c :: ga, gb).
Proof. reflexivity. Qed.

(** A match of the regular expression splits the subject into its two
    groups, the second being a numeric token. *)
Lemma matchStreetNumber_Some prev s (ga gb : list N) :
  Legacy.matchStreetNumber prev s = Some (ga, gb) →
  s = ga ++ gb ∧ isNumericToken gb = true.
Proof.
  revert prev ga. induction s as [|c s IH]; intros prev ga.
  - simpl. rewrite andb_false_r. done.
  - rewrite matchStreetNumber_cons.
    destruct (Legacy.wordBoundary prev (c :: s) && isNumericToken (c :: s))
      eqn:Hhere.
    + intros [= <- <-]. apply andb_true_iff in Hhere as [_ Hn]. done.
    + destruct (Legacy.isLineTerminator c); [done|].
      destruct (Legacy.matchStreetNumber (Some c) s) as [[ga' gb']|] eqn:E;
        [|done].
      simpl. intros [= <- <-]. destruct (IH _ _ E) as [-> Hn]. done.
Qed.

(** X20: A number of the earlier tokenizer is a numeric token at the end of
    the head, and the street, which is not empty, is what stands before it,
    trimmed. *)
Theorem legacy_number_at_end input h n :
  Legacy.extractStreetAndNumber input = Some h → number h = Some n →
  isNumericToken n = true
  ∧ street h ≠ []
  ∧ ∃ before, headText input = before ++ n ∧ street h = trim before.
Proof.
  unfold Legacy.extractStreetAndNumber. rewrite headOf_headText. simpl.
  destruct (Legacy.matchStreetNumber None (headText input))
    as [[ga gb]|] eqn:E; [|by intros [= <-]].
  destruct (matchStreetNumber_Some _ _ _ _ E) as [Hsplit Hn].
  rewrite (whiteFree_trim gb) by (by apply isNumericToken_whiteFree).
  destruct (truthy (trim ga) && truthy gb) eqn:Hb; [|by intros [= <-]].
  intros [= <-]. simpl. intros [= <-].
  apply andb_true_iff in Hb as [Hs _]. apply truthy_nonempty in Hs.
  split; [done|]. split; [done|]. by exists ga.
Qed.

Lemma dropWhile_all (f : N → bool) s :
  Forall (λ c, f c = true) s → dropWhile f s = [].
Proof.
  induction 1 as [|c s Hc _ IH]; simpl; [done|]. by rewrite Hc.
Qed.

Lemma removeFromDigits_line s :
  Forall (λ c, Legacy.isLineTerminator c = false) s →
  ∃ post, s = Legacy.removeFromDigits s ++ post
          ∧ Forall (λ c, isDigit c = false) (Legacy.removeFromDigits s)
          ∧ (post = [] ∨ ∃ c p, post = c :: p ∧ isDigit c = true).
Proof.
  induction 1 as [|c s Hc Hs IH]; simpl.
  - exists []. split; [done|]. split; [constructor | by left].
  - destruct (isDigit c) eqn:Hd.
    + rewrite dropWhile_all.
      * exists (c :: s). split; [done|]. split; [constructor|]. right. eauto.
      * eapply Forall_impl; [exact Hs|]. simpl. by intros ? ->.
    + destruct IH as (post & E & Hnd & Hp). exists post.
      split; [simpl; by rewrite <- E|]. split; [by constructor | done].
Qed.

(** X21: Without a number, the earlier tokenizer cuts the head at its first
    digit: on a head of one line, the street is what stands before the first
    digit, trimmed, so it holds no digit. *)
Theorem legacy_street_cut_at_digit input h :
  Legacy.extractStreetAndNumber input = Some h → number h = None →
  Forall (λ c, Legacy.isLineTerminator c = false) (headText input) →
  ∃ before post,
    headText input = before ++ post
    ∧ street h = trim before
    ∧ Forall (λ c, isDigit c = false) (street h)
    ∧ (post = [] ∨ ∃ c p, post = c :: p ∧ isDigit c = true).
Proof.
  intros Hh Hn Hline.
  assert (street h = trim (Legacy.removeFromDigits (headText input))) as Hs.
  { revert Hh. unfold Legacy.extractStreetAndNumber.
    rewrite headOf_headText. simpl.
    destruct (Legacy.matchStreetNumber None (headText input)) as [[ga gb]|];
      [|by intros [= <-]].
    destruct (truthy (trim ga) && truthy (trim gb)); [|by intros [= <-]].
    intros [= <-]. simpl in Hn. done. }
  destruct (removeFromDigits_line _ Hline) as (post & E & Hnd & Hp).
  exists (Legacy.removeFromDigits (headText input)), post.
  split; [done|]. split; [done|]. split; [|done].
  rewrite Hs. apply Forall_forall. intros c Hc%trim_elem.
  rewrite Forall_forall in Hnd. by apply Hnd.
Qed.

End LegacyTokenizer.

Section LegacyFormatter.

Variable toLowerCase : list N → list N.

Implicit Types (r : NominatimResult) (addr : Address) (h : ParsedHint)
  (results : list NominatimResult).

Lemma orEmpty_Some (s : list N) : orEmpty (Some s) = s.
Proof. by destruct s. Qed.

Lemma legacy_format_with_address r addr inj :
  address r = Some addr →
  Legacy.formatArgentinianAddress toLowerCase r inj
  = if truthy (trim (join sep (Legacy.formatParts toLowerCase addr inj)))
    then trim (join sep (Legacy.formatParts toLowerCase addr inj))
    else display_name r.
Proof. unfold Legacy.formatArgentinianAddress. by intros ->. Qed.

(** X22: On a record with a road, the earlier formatter never writes the
    typed street: with a typed number and street names that overlap it
    writes the record with the typed number as its house number, and
    otherwise the record as if nothing was typed. *)
Theorem legacy_format_keeps_road r addr h :
  address r = Some addr → truthyOpt (road addr) = true →
  Legacy.formatArgentinianAddress toLowerCase r (Some h)
  = if truthyOpt (number h)
       && Legacy.looselyMatches toLowerCase (street h) (orEmpty (road addr))
    then Legacy.formatArgentinianAddress toLowerCase
           (withAddress r (Some (withHouseNumber (orEmpty (number h)) addr)))
           None
    else Legacy.formatArgentinianAddress toLowerCase r None.
Proof.
  intros Ha Hroad.
  assert (truthy (orEmpty (road addr)) = true) as Ht.
  { destruct (road addr) as [[|? ?]|]; done. }
  assert (Legacy.formatParts toLowerCase addr (Some h)
          = if truthyOpt (number h)
               && Legacy.looselyMatches toLowerCase (street h)
                    (orEmpty (road addr))
            then Legacy.formatParts toLowerCase
                   (withHouseNumber (orEmpty (number h)) addr) None
            else Legacy.formatParts toLowerCase addr None) as Hparts.
  { unfold Legacy.formatParts.
    change (hintStreet (Some h)) with (Some (street h)).
    change (hintNumber (Some h)) with (number h).
    change (hintNumber None) with (@None (list N)).
    cbn [withHouseNumber road town suburb village municipality city_district
         city state house_number truthyOpt andb].
    rewrite !orEmpty_Some, Ht.
    by destruct (truthyOpt (number h)
                 && Legacy.looselyMatches toLowerCase (street h)
                      (orEmpty (road addr))). }
  rewrite (legacy_format_with_address r addr) by done. rewrite Hparts.
  destruct (truthyOpt (number h) && _).
  - by rewrite (legacy_format_with_address _
                  (withHouseNumber (orEmpty (number h)) addr)).
  - by rewrite (legacy_format_with_address r addr).
Qed.

(** X23: The two copies of the formatter agree when nothing was typed, and
    on a record without a road when a number was typed or the record has no
    house number. *)
Theorem formatters_agree r :
  Legacy.formatArgentinianAddress toLowerCase r None
  = formatArgentinianAddress r None
  ∧ (∀ addr h,
       address r = Some addr → truthyOpt (road addr) = false →
       truthyOpt (number h) = true ∨ truthyOpt (house_number addr) = false →
       Legacy.formatArgentinianAddress toLowerCase r (Some h)
       = formatArgentinianAddress r (Some h)).
Proof.
  split.
  - unfold Legacy.formatArgentinianAddress, formatArgentinianAddress.
    destruct (address r) as [addr|]; [|done].
    assert (Legacy.formatParts toLowerCase addr None = formatParts addr None)
      as ->; [|done].
    unfold Legacy.formatParts, formatParts, hintNumber, hintStreet,
      streetSegment. simpl. by destruct (truthy (orEmpty (road addr))).
  - intros addr h Ha Hroad Hnum.
    rewrite (legacy_format_with_address r addr),
      (format_with_address r addr) by done.
    assert (Legacy.formatParts toLowerCase addr (Some h)
            = formatParts addr (Some h)) as ->; [|done].
    assert (orEmpty (road addr) = []) as Hr.
    { destruct (road addr) as [[|? ?]|]; simpl in *; congruence. }
    unfold Legacy.formatParts, formatParts, hintNumber, hintStreet,
      streetSegment. simpl. rewrite Hr. simpl.
    destruct (street h) as [|c s]; [done|]. simpl.
    destruct Hnum as [Hn|Hn].
    + destruct (number h) as [[|d n]|]; done.
    + destruct (number h) as [[|d n]|]; simpl; try done;
        destruct (house_number addr) as [[|? ?]|]; done.
Qed.

Lemma legacyNumberFilter_sublist parsed results :
  legacyNumberFilter toLowerCase parsed results
    (legacyMapFormatted toLowerCase parsed results)
  `sublist_of` legacyMapFormatted toLowerCase parsed results.
Proof.
  unfold legacyNumberFilter. destruct (number parsed) as [[|c n]|]; try done.
  case_bool_decide; [done | apply sublist_filter].
Qed.

Lemma legacyNumberFilter_nil parsed results :
  legacyNumberFilter toLowerCase parsed results
    (legacyMapFormatted toLowerCase parsed results) = []
  ↔ results = [].
Proof.
  assert (legacyMapFormatted toLowerCase parsed results = [] ↔ results = [])
    as Hmap.
  { unfold legacyMapFormatted. split; [apply fmap_nil_inv | by intros ->]. }
  rewrite <- Hmap.
  unfold legacyNumberFilter. destruct (number parsed) as [[|c n]|]; try done.
  case_bool_decide as Hlen; [done|].
  split; [|by intros ->]. intros E. rewrite E in Hlen. done.
Qed.

(** X24: The suggestions of the earlier copy: each is a result of the
    response with its text replaced by the formatted address; their texts
    are pairwise distinct; there are none only for an empty response; and
    with a typed number either all of them hold it or none of the formatted
    results does. *)
Theorem legacy_suggestions parsed results :
  (∀ sg : NominatimResult,
     sg ∈ legacySuggestionsOf toLowerCase parsed results →
     ∃ r, r ∈ results
          ∧ sg = withDisplayName r
                   (Legacy.formatArgentinianAddress toLowerCase r (Some parsed)))
  ∧ NoDup (display_name <$> legacySuggestionsOf toLowerCase parsed results)
  ∧ (legacySuggestionsOf toLowerCase parsed results = [] ↔ results = [])
  ∧ (∀ n, number parsed = Some n → n ≠ [] →
          Forall (λ sg, includes (display_name sg) n = true)
                 (legacySuggestionsOf toLowerCase parsed results)
          ∨ Forall (λ sg, includes (display_name sg) n = false)
                   (legacyMapFormatted toLowerCase parsed results)).
Proof.
  unfold legacySuggestionsOf.
  pose proof (legacyNumberFilter_sublist parsed results) as Hsub.
  set (filtered := legacyNumberFilter toLowerCase parsed results
                     (legacyMapFormatted toLowerCase parsed results)) in *.
  split; [|split; [|split]].
  - intros sg Hs.
    pose proof (dedupe_sublist filtered) as Hin.
    apply (elem_of_sublist _ _ _ Hs) in Hin.
    apply (elem_of_sublist _ _ _ Hin) in Hsub.
    unfold legacyMapFormatted in Hsub.
    apply list_elem_of_fmap in Hsub as (r & -> & Hr). eauto.
  - rewrite dedupe_firstOccurrences. unfold firstOccurrences.
    by destruct (firstOccurrencesFrom_spec [] filtered) as (H' & _).
  - rewrite dedupe_nil. apply legacyNumberFilter_nil.
  - intros n Hn Hne. subst filtered. unfold legacyNumberFilter. rewrite Hn.
    destruct n as [|c n]; [done|].
    set (mapped := legacyMapFormatted toLowerCase parsed results).
    case_bool_decide as Hlen.
    + right. apply length_zero_iff_nil in Hlen.
      apply Forall_forall. intros sg Hsg.
      destruct (includes (display_name sg) (c :: n)) eqn:E; [|done].
      exfalso. eapply (filter_nil_not_elem_of _ _ sg Hlen); [|done].
      by apply Is_true_true.
    + left. apply Forall_forall. intros sg Hsg.
      pose proof (dedupe_sublist
        (filter (λ s, includes (display_name s) (c :: n)) mapped)) as Hin.
      apply (elem_of_sublist _ _ _ Hsg) in Hin.
      apply list_elem_of_filter in Hin as [Hinc _].
      by apply Is_true_true.
Qed.

End LegacyFormatter.

(** ** The two tokenizers side by side *)

Section TokenizersAgree.

Implicit Types (input s g run num : list N) (c w : N).

Lemma dropWhile_prefix (f : N → bool) s :
  ∃ pre, s = pre ++ dropWhile f s ∧ Forall (λ c, f c = true) pre.
Proof.
  induction s as [|c s (pre & E & Hpre)]; simpl;
    [exists []; by split|].
  destruct (f c) eqn:Hc; [|exists []; by split].
  exists (c :: pre). split; [simpl; by rewrite <- E | by constructor].
Qed.

Lemma trimEnd_split g :
  ∃ run, g = trimEnd g ++ run ∧ Forall (λ c, isWhite c = true) run.
Proof.
  unfold trimEnd.
  destruct (dropWhile_prefix isWhite (reverse g)) as (pre & E & Hpre).
  exists (reverse pre). split.
  - rewrite <- reverse_app, <- E. symmetry. apply reverse_involutive.
  - apply Forall_forall. intros c Hc.
    apply (proj1 (elem_of_reverse c pre)) in Hc.
    rewrite Forall_forall in Hpre. by apply Hpre.
Qed.

Lemma splitWs_run_token run num :
  run ≠ [] → Forall (λ c, isWhite c = true) run →
  num ≠ [] → whiteFree num = true →
  splitWs (run ++ num) = [[]; num].
Proof.
  intros Hne Hrun Hnum Hfree. induction Hrun as [|w run Hw Hrun IH]; [done|].
  change ((w :: run) ++ num) with (w :: (run ++ num)).
  rewrite splitWs_cons, Hw.
  destruct run as [|w' run].
  - simpl. destruct num as [|d num]; [done|].
    pose proof (whiteFree_leading _ Hfree) as Hd.
    unfold leadingWhite in Hd. simpl in Hd. rewrite Hd.
    by rewrite (splitWs_token (d :: num)).
  - inversion Hrun as [|? ? Hw' _]; subst.
    change ((w' :: run) ++ num) with (w' :: (run ++ num)) in *.
    cbv iota. rewrite Hw'. by apply IH.
Qed.

(** A numeric token after white space is the last token. *)
Lemma splitWs_app_run_token g run num :
  g ≠ [] → trailingWhite g = false →
  run ≠ [] → Forall (λ c, isWhite c = true) run →
  num ≠ [] → whiteFree num = true →
  splitWs (g ++ run ++ num) = splitWs g ++ [num].
Proof.
  intros Hg Ht Hne Hrun Hnum Hfree.
  induction g as [|c g IH]; [done|].
  change ((c :: g) ++ run ++ num) with (c :: (g ++ run ++ num)).
  rewrite !splitWs_cons.
  destruct g as [|c' g].
  - unfold trailingWhite in Ht. simpl in Ht. rewrite Ht.
    change ([] ++ run ++ num) with (run ++ num).
    by rewrite splitWs_run_token.
  - rewrite trailingWhite_cons_cons in Ht. specialize (IH ltac:(done) Ht).
    change ((c' :: g) ++ run ++ num) with (c' :: (g ++ run ++ num)) in *.
    cbv iota.
    destruct (isWhite c).
    + destruct (isWhite c'); by rewrite IH.
    + rewrite IH. by destruct (splitWs_cons_inv (c' :: g)) as (t & ts & ->).
Qed.

Lemma isWord_not_white c : isWhite c = true → Legacy.isWord c = false.
Proof.
  intros Hw. apply not_true_iff_false. intros H.
  unfold Legacy.isWord, isWhite in *.
  rewrite ?orb_true_iff, ?andb_true_iff, ?N.leb_le, ?N.eqb_eq in *. lia.
Qed.

Lemma isDigit_isWord c : isDigit c = true → Legacy.isWord c = true.
Proof.
  unfold isDigit, Legacy.isWord. intros ->. by rewrite !orb_true_r.
Qed.

Lemma not_numeric_with_white s c :
  c ∈ s → isWhite c = true → isNumericToken s = false.
Proof.
  intros Hc Hw. destruct (isNumericToken s) eqn:E; [|done].
  apply isNumericToken_whiteFree in E.
  by rewrite (whiteFree_elem _ _ E Hc) in Hw.
Qed.

(** The regular expression of the earlier copy finds a numeric token that
    ends the subject after white space on the same line. *)
Lemma matchStreetNumber_trailing prev g w num :
  last g = Some w → isWhite w = true →
  Forall (λ c, Legacy.isLineTerminator c = false) g →
  isNumericToken num = true →
  Legacy.matchStreetNumber prev (g ++ num) = Some (g, num).
Proof.
  intros Hlast Hw Hline Hnum. revert prev.
  induction g as [|c g IH]; intros prev; [done|].
  change ((c :: g) ++ num) with (c :: (g ++ num)).
  rewrite matchStreetNumber_cons.
  assert (w ∈ c :: g ++ num) as Hin.
  { apply last_Some_elem_of in Hlast.
    change (c :: g ++ num) with ((c :: g) ++ num). apply elem_of_app. by left. }
  rewrite (not_numeric_with_white _ w Hin Hw), andb_false_r.
  inversion Hline as [|? ? Hc Hline']; subst. rewrite Hc.
  destruct g as [|c' g].
  - simpl in Hlast. injection Hlast as ->.
    destruct (isNumericToken_iff_helper _ Hnum) as (d & rest & -> & Hd & _).
    change ([] ++ d :: rest) with (d :: rest).
    rewrite matchStreetNumber_cons.
    unfold Legacy.wordBoundary. simpl head. simpl Legacy.isWordOpt.
    rewrite (isWord_not_white w Hw), (isDigit_isWord d Hd), Hnum. done.
  - rewrite last_cons_cons in Hlast. by rewrite (IH Hlast Hline').
Qed.

(** X25: When the head ends, on one line, with white space and a numeric
    token, the two copies of the tokenizer return that token as the number,
    and their streets are the same up to the white space between the tokens:
    the earlier copy keeps it as typed, the later one writes single spaces. *)
Theorem tokenizers_agree_on_trailing_number input g num :
  headText input = g ++ num →
  trailingWhite g = true →
  isNumericToken num = true →
  Forall (λ c, Legacy.isLineTerminator c = false) g →
  ∃ hNew hOld,
    extractStreetAndNumber input = Some hNew
    ∧ Legacy.extractStreetAndNumber input = Some hOld
    ∧ number hNew = Some num ∧ number hOld = Some num
    ∧ street hOld = trim g
    ∧ street hNew = join space (splitWs (street hOld)).
Proof.
  intros Hhead Htrail Hnum Hline.
  pose proof (isNumericToken_whiteFree num Hnum) as Hfree.
  assert (num ≠ []) as Hne by (by destruct num).
  assert (g ≠ []) as Hg by (by destruct g).
  (* the shape of the head *)
  pose proof (headText_trimmed input) as Htrim. rewrite Hhead in Htrim.
  unfold isTrimmed in Htrim. apply andb_true_iff in Htrim as [Hlead _].
  apply negb_true_iff in Hlead. rewrite leadingWhite_app in Hlead by done.
  destruct (trimEnd_split g) as (run & Hsplit & Hrun).
  assert (trim g = trimEnd g) as Htg.
  { unfold trim. by rewrite trimStart_id. }
  assert (trimEnd g ≠ []) as Hg1.
  { destruct g as [|c g']; [done|]. unfold leadingWhite in Hlead.
    simpl in Hlead. by destruct (trimEnd_cons c g' Hlead) as [? ->]. }
  assert (run ≠ []) as Hrun_ne.
  { intros ->. rewrite app_nil_r in Hsplit.
    rewrite Hsplit, trailingWhite_trimEnd in Htrail. done. }
  assert (tokensOf input = splitWs (trim g) ++ [num]) as Htokens.
  { unfold tokensOf. rewrite Hhead, Htg.
    rewrite Hsplit at 1. rewrite <- app_assoc.
    apply splitWs_app_run_token; try done. apply trailingWhite_trimEnd. }
  assert (Forall (λ t, t ≠ [] ∧ whiteFree t = true) (splitWs (trim g)))
    as Htok.
  { apply splitWs_trimmed; [apply trim_isTrimmed | by rewrite Htg]. }
  destruct (splitWs_cons_inv (trim g)) as (t0 & ts0 & Hts).
  (* the earlier copy *)
  assert (Legacy.extractStreetAndNumber input
          = Some {| street := trim g; number := Some num |}) as Hold.
  { unfold Legacy.extractStreetAndNumber. rewrite headOf_headText. simpl.
    rewrite Hhead.
    destruct (last g) as [w|] eqn:Hlast; [|by apply last_None in Hlast].
    unfold trailingWhite in Htrail. rewrite Hlast in Htrail. simpl in Htrail.
    rewrite (matchStreetNumber_trailing None g w num) by done.
    rewrite (whiteFree_trim num) by done.
    rewrite (proj2 (truthy_nonempty (trim g))) by (by rewrite Htg).
    by rewrite (proj2 (truthy_nonempty num)). }
  (* the later copy *)
  assert (numericTokenIndices (tokensOf input)
          = numericTokenIndices (splitWs (trim g))
            ++ [length (splitWs (trim g))]) as Hidx.
  { rewrite Htokens. unfold numericTokenIndices.
    rewrite numericIndicesFrom_app. simpl. by rewrite Hnum. }
  assert (0 < length (splitWs (trim g)))%nat as Hlen by (rewrite Hts; simpl; lia).
  exists {| street := join space (splitWs (trim g)); number := Some num |},
         {| street := trim g; number := Some num |}.
  split; [|by repeat split].
  pose proof (extractStreetAndNumber_cases input) as Hcase.
  remember (extractStreetAndNumber input) as res eqn:Hres.
  destruct Hcase as [k n Hlast Hpos Hwhy Hk Hn | k Hone Hnot | Hzero].
  - rewrite Hidx, last_snoc in Hlast. injection Hlast as <-.
    rewrite Htokens in Hk |- *.
    rewrite lookup_app_r, Nat.sub_diag in Hk by lia. injection Hk as <-.
    by rewrite take_app_length.
  - rewrite Hidx in Hone.
    destruct (numericTokenIndices (splitWs (trim g))) as [|? l];
      [|by destruct l].
    injection Hone as <-. exfalso. apply Hnot.
    rewrite Htokens, length_app. simpl. lia.
  - pose proof (numericTokenIndices_length (tokensOf input)) as Hl.
    rewrite Hidx, Hzero, length_app in Hl. simpl in Hl. lia.
Qed.

End TokenizersAgree.

(** * The further statements at sample inputs *)

Lemma tokenizer_ignores_text_after_comma_sample :
  extractStreetAndNumber (lit "Okinawa 1518" ++ comma :: lit " Ze")
  = extractStreetAndNumber (lit "Okinawa 1518").
Proof.
  apply (tokenizer_ignores_text_after_comma (lit "Okinawa 1518") (lit " Ze")).
  apply (bool_decide_unpack _). vm_compute. exact I.
Defined.

Lemma split_join_round_trip_sample :
  splitWs (join space [lit "Ruta"; lit "8"]) = [lit "Ruta"; lit "8"].
Proof.
  apply (proj1 split_join_round_trip [lit "Ruta"; lit "8"]).
  - apply (bool_decide_unpack _). vm_compute. exact I.
  - discriminate.
Defined.

Lemma tokenizer_reparses_its_hint_sample :
  extractStreetAndNumber
    (renderHint {| street := lit "Ruta 8"; number := Some (lit "1518") |})
  = Some {| street := lit "Ruta 8"; number := Some (lit "1518") |}.
Proof.
  apply (tokenizer_reparses_its_hint (lit "Ruta 8 1518, Ze")). reflexivity.
Defined.

Lemma hint_has_no_comma_sample :
  (comma ∉ lit "Okinawa")
  ∧ (∀ n, Some (lit "1518") = Some n → (comma ∉ n) ∧ whiteFree n = true).
Proof.
  exact (hint_has_no_comma (lit "Okinawa 1518, Ze")
           {| street := lit "Okinawa"; number := Some (lit "1518") |} eq_refl).
Defined.

Lemma format_starts_with_typed_address_sample :
  startsWith (lit "Calle 844" ++ space ++ lit "1518")
    (formatArgentinianAddress recLopez (Some hint844)) = true
  ∧ includes (formatArgentinianAddress recLopez (Some hint844)) (lit "1518")
    = true.
Proof.
  exact (format_starts_with_typed_address (lit "Calle 844 1518") hint844
           (lit "1518") recLopez (default noAddress (address recLopez))
           eq_refl eq_refl eq_refl).
Defined.

Lemma suggestion_text_reparses_sample :
  extractStreetAndNumber (formatArgentinianAddress recLopez (Some hint844))
  = Some hint844.
Proof.
  exact (suggestion_text_reparses (lit "Calle 844 1518") hint844
           (lit "1518") recLopez (default noAddress (address recLopez))
           eq_refl eq_refl eq_refl).
Defined.

Lemma number_filter_keeps_all_sample :
  numberFilter hint844 (validResultsOf [recLopez; recBlankTown])
    (mapFormatted hint844 (validResultsOf [recLopez; recBlankTown]))
  = mapFormatted hint844 (validResultsOf [recLopez; recBlankTown])
  ∧ suggestionsOf hint844 [recLopez; recBlankTown]
    = dedupe (mapFormatted hint844 (validResultsOf [recLopez; recBlankTown])).
Proof.
  exact (number_filter_keeps_all (lit "Calle 844 1518") hint844
           [recLopez; recBlankTown] eq_refl).
Defined.

Lemma arrows_keep_selection_in_range_sample :
  handleKeyDown (lit "ArrowDown")
    (mkState (lit "Calle") [recLopez; recCommaTown] false true 1)
  = Some (setSelectedIndex 1
            (mkState (lit "Calle") [recLopez; recCommaTown] false true 1),
          [PreventDefault])
  ∧ handleKeyDown (lit "ArrowUp")
      (mkState (lit "Calle") [recLopez; recCommaTown] false true 1)
    = Some (setSelectedIndex 0
              (mkState (lit "Calle") [recLopez; recCommaTown] false true 1),
            [PreventDefault]).
Proof.
  apply (arrows_keep_selection_in_range
           (mkState (lit "Calle") [recLopez; recCommaTown] false true 1)).
  - reflexivity.
  - discriminate.
  - simpl. lia.
Defined.

Lemma component_invariant_sample :
  (-1 ≤ selectedIndex
          (comp (handleInputChange (lit "Oki") 1 (initialWorld []))))%Z
  ∧ (showSuggestions
       (comp (handleInputChange (lit "Oki") 1 (initialWorld []))) = true →
     suggestions (comp (handleInputChange (lit "Oki") 1 (initialWorld [])))
     ≠ [])
  ∧ NoDup (display_name <$>
             suggestions
               (comp (handleInputChange (lit "Oki") 1 (initialWorld []))))
  ∧ Forall (λ s, truthyOpt (a ← address s; road a) = true)
           (suggestions
              (comp (handleInputChange (lit "Oki") 1 (initialWorld [])))).
Proof.
  apply (component_invariant []).
  apply rtc_once. apply step_input; [lia | reflexivity].
Defined.

Lemma debounce_single_timer_sample :
  (∀ id1 id2 q1 q2,
     timers (handleInputChange (lit "Oki") 1 (initialWorld [])) !! id1
     = Some q1 →
     timers (handleInputChange (lit "Oki") 1 (initialWorld [])) !! id2
     = Some q2 →
     id1 = id2
     ∧ debounceRef (handleInputChange (lit "Oki") 1 (initialWorld []))
       = Some id1)
  ∧ (∀ newValue id,
       timers (handleInputChange newValue id
                 (handleInputChange (lit "Oki") 1 (initialWorld [])))
       = {[id := newValue]})
  ∧ clearDebounce (handleInputChange (lit "Oki") 1 (initialWorld [])) = ∅.
Proof.
  apply (debounce_single_timer []).
  apply rtc_once. apply step_input; [lia | reflexivity].
Defined.

Lemma legacy_number_at_end_sample :
  isNumericToken (lit "1518") = true
  ∧ lit "Okinawa" ≠ []
  ∧ ∃ before, headText (lit "Okinawa 1518, Ze") = before ++ lit "1518"
              ∧ lit "Okinawa" = trim before.
Proof.
  exact (legacy_number_at_end (lit "Okinawa 1518, Ze")
           {| street := lit "Okinawa"; number := Some (lit "1518") |}
           (lit "1518") eq_refl eq_refl).
Defined.

Lemma legacy_street_cut_at_digit_sample :
  ∃ before post,
    headText (lit "Julio 9 bis") = before ++ post
    ∧ lit "Julio" = trim before
    ∧ Forall (λ c, isDigit c = false) (lit "Julio")
    ∧ (post = [] ∨ ∃ c p, post = c :: p ∧ isDigit c = true).
Proof.
  apply (legacy_street_cut_at_digit (lit "Julio 9 bis")
           {| street := lit "Julio"; number := None |}).
  - reflexivity.
  - reflexivity.
  - apply (bool_decide_unpack _). vm_compute. exact I.
Defined.

Lemma legacy_format_keeps_road_sample :
  Legacy.formatArgentinianAddress (fmap Legacy.lowerLatin1) recLopez
    (Some hint844)
  = Legacy.formatArgentinianAddress (fmap Legacy.lowerLatin1) recLopez None.
Proof.
  exact (legacy_format_keeps_road (fmap Legacy.lowerLatin1) recLopez
           (default noAddress (address recLopez)) hint844 eq_refl eq_refl).
Defined.

Lemma tokenizers_agree_on_trailing_number_sample :
  ∃ hNew hOld,
    extractStreetAndNumber (lit "Ruta  8 1518, Ze") = Some hNew
    ∧ Legacy.extractStreetAndNumber (lit "Ruta  8 1518, Ze") = Some hOld
    ∧ number hNew = Some (lit "1518") ∧ number hOld = Some (lit "1518")
    ∧ street hOld = trim (lit "Ruta  8 ")
    ∧ street hNew = join space (splitWs (street hOld)).
Proof.
  apply (tokenizers_agree_on_trailing_number (lit "Ruta  8 1518, Ze")
           (lit "Ruta  8 ") (lit "1518")).
  - reflexivity.
  - reflexivity.
  - reflexivity.
  - apply (bool_decide_unpack _). vm_compute. exact I.
Defined.
